(** * tri_driver_common/utility.hpp: a shallow embedding and its properties

    The header is a collection of small templates.  Each one is embedded
    below as a Rocq function that follows the C++ text: exceptions, failed
    assertions and undefined behaviour are explicit outcomes, text written
    to [std::cerr] / [std::cout] is returned next to the outcome, fixed-width
    unsigned integers are [Z] with the wrap-around written out, [std::vector]
    is [list], and [std::map] is the sequence of its entries in iteration
    order. *)

From Stdlib Require Import ZArith List String Ascii Bool Lia DecimalString.
From Stdlib Require Import Sorted Permutation.
Import ListNotations.

Local Open Scope Z_scope.

(* ================================================================== *)
(** ** Outcomes of a call *)

(** The two exception classes the header throws, with their [what()]. *)
Inductive exception : Type :=
| invalid_argument (what : string)
| runtime_error (what : string).

(** How a call can end: a normal return, a thrown exception, a failed
    [assert] (the process aborts), or undefined behaviour of the language
    (division by zero, an over-wide shift, an out-of-range [operator[]]). *)
Inductive result (A : Type) : Type :=
| Ok (a : A)
| Throw (e : exception)
| AssertFail (expr : string)
| Undefined.

Arguments Ok {A} a.
Arguments Throw {A} e.
Arguments AssertFail {A} expr.
Arguments Undefined {A}.

Definition bind {A B : Type} (c : result A) (k : A -> result B) : result B :=
  match c with
  | Ok a => k a
  | Throw e => Throw e
  | AssertFail s => AssertFail s
  | Undefined => Undefined
  end.

Notation "x <- c ;; k" := (bind c (fun x => k))
  (at level 61, c at next level, right associativity).

(** [assert(cond)].  The header does not fix [NDEBUG]; the code that
    includes it does.  With [NDEBUG] defined the macro expands to nothing
    and the condition is not evaluated; without it a false condition aborts
    the process, reported here with the text of the asserted expression. *)
Definition assert (NDEBUG : bool) (cond : bool) (expr : string) : result unit :=
  if NDEBUG then Ok tt
  else if cond then Ok tt else AssertFail expr.

(* ================================================================== *)
(** ** Loops over [std::vector]

    [for (size_t idx = 0; idx < v.size(); idx++) { ... v[idx] ... }] *)

(** What one loop iteration asks for: go on with a new state, or
    [return r] out of the enclosing function. *)
Inductive flow (S R : Type) : Type :=
| Next (s : S)
| Return (r : R).

Arguments Next {S R} s.
Arguments Return {S R} r.

(** [v[idx]]: undefined outside [0 .. v.size()). *)
Definition at_index {T : Type} (v : list T) (idx : nat) : result T :=
  match nth_error v idx with
  | Some x => Ok x
  | None => Undefined
  end.

(** Runs the body for [idx, idx+1, ..., idx+count-1]. *)
Fixpoint for_idx {S R : Type} (count idx : nat)
    (body : nat -> S -> result (flow S R)) (s : S) : result (flow S R) :=
  match count with
  | O => Ok (Next s)
  | Datatypes.S count' =>
      r <- body idx s ;;
      match r with
      | Next s' => for_idx count' (Datatypes.S idx) body s'
      | Return r => Ok (Return r)
      end
  end.

(* ================================================================== *)
(** ** Ordered and printable template arguments *)

(** [operator<] of the template argument; the other comparisons are the
    usual ones derived from it ([a > b] is [b < a], [a >= b] is [!(a < b)]). *)
Class Less (T : Type) := less : T -> T -> bool.

Definition greater {T} `{Less T} (a b : T) : bool := less b a.
Definition greater_eq {T} `{Less T} (a b : T) : bool := negb (less a b).

(** The built-in integer comparisons are strict total orders. *)
Class StrictTotal (T : Type) `{Less T} : Prop := {
  less_irrefl : forall a, less a a = false;
  less_trans : forall a b c, less a b = true -> less b c = true -> less a c = true;
  less_total : forall a b, less a b = false -> less b a = false -> a = b
}.

(** [std::to_string]. *)
Class ToString (T : Type) := to_string : T -> string.

#[global] Instance Z_less : Less Z := Z.ltb.

(** Decimal text of an integer, as [std::to_string] prints it. *)
#[global] Instance Z_to_string : ToString Z :=
  fun z => NilZero.string_of_int (Z.to_int z).

(** The values of a floating-point type that the comparisons tell apart:
    numbers (the integral ones suffice here) and NaN.  [a < b] is false as
    soon as one operand is NaN.  With a NaN operand [a >= b] is false in
    C++ as well, which [greater_eq] does not reproduce; NaN is used below
    only as the clamped value, to which the code applies [<] and [>]
    alone. *)
Inductive fp : Type :=
| Num (z : Z)
| NaN.

#[global] Instance fp_less : Less fp :=
  fun a b =>
    match a, b with
    | Num x, Num y => x <? y
    | _, _ => false
    end.

(** [std::to_string] of a floating-point value prints six decimals. *)
#[global] Instance fp_to_string : ToString fp :=
  fun a =>
    match a with
    | Num z => (NilZero.string_of_int (Z.to_int z) ++ ".000000")%string
    | NaN => "nan"%string
    end.

(** The line feed that ends every message. *)
Definition newline : string := String (ascii_of_nat 10) EmptyString.

(** [std::max(a, b)] is [(a < b) ? b : a]; [std::min(a, b)] is
    [(b < a) ? b : a]. *)
Definition std_max {T} `{Less T} (a b : T) : T := if less a b then b else a.
Definition std_min {T} `{Less T} (a b : T) : T := if less b a then b else a.

(* ================================================================== *)
(** ** Numeric bounds *)

Section Clamp.
Context {T : Type} `{Less T} `{ToString T}.

Definition ClampValue (val min max : T) : result T :=
  if greater_eq max min then
    Ok (std_min max (std_max min val))
  else
    Throw (invalid_argument "min > max").

(** The first component is what the call wrote to [std::cerr]. *)
Definition ClampValueAndWarn (val min max : T) : list string * result T :=
  if greater_eq max min then
    if less val min then
      let msg := ("Clamping " ++ to_string val
                  ++ " to min " ++ to_string min ++ newline)%string in
      ([msg], Ok min)
    else if greater val max then
      let msg := ("Clamping " ++ to_string val
                  ++ " to max " ++ to_string max ++ newline)%string in
      ([msg], Ok max)
    else ([], Ok val)
  else
    ([], Throw (invalid_argument "min > max")).
End Clamp.

(* ================================================================== *)
(** ** Alignment

    The only thing the two functions use of [item] is its address,
    [(uintptr_t)&item]; it is the first argument here.  [uintptr_t] and
    [uint64_t] are 64 bits wide. *)

(** [a % b] on unsigned operands: undefined when [b] is zero. *)
Definition umod (a b : Z) : result Z :=
  if b =? 0 then Undefined else Ok (a mod b).

(** The first component is what the call wrote to [std::cout]. *)
Definition CheckAlignment (item_ptr_val desired_alignment : Z) (verbose : bool)
  : list string * result bool :=
  match umod item_ptr_val desired_alignment with
  | Ok r =>
      if r =? 0 then
        if verbose then
          let msg := ("Item @ " ++ to_string item_ptr_val
                      ++ " aligned to "
                      ++ to_string desired_alignment ++ " bytes" ++ newline)%string in
          ([msg], Ok true)
        else ([], Ok true)
      else
        if verbose then
          let msg := ("Item @ " ++ to_string item_ptr_val
                      ++ " NOT aligned to "
                      ++ to_string desired_alignment ++ " bytes" ++ newline)%string in
          ([msg], Ok false)
        else ([], Ok false)
  | Throw e => ([], Throw e)
  | AssertFail s => ([], AssertFail s)
  | Undefined => ([], Undefined)
  end.

Definition RequireAlignment (item_ptr_val desired_alignment : Z) : result unit :=
  r <- umod item_ptr_val desired_alignment ;;
  if negb (r =? 0) then
    Throw (runtime_error ("Item @ " ++ to_string item_ptr_val
                          ++ " not aligned at desired alignment of "
                          ++ to_string desired_alignment ++ " bytes")%string)
  else Ok tt.

(* ================================================================== *)
(** ** Bit operations *)

(** The four types the [static_assert] of [SetBit] lets through. *)
Inductive uint_type : Type := uint8_t | uint16_t | uint32_t | uint64_t.

Definition width (T : uint_type) : Z :=
  match T with
  | uint8_t => 8
  | uint16_t => 16
  | uint32_t => 32
  | uint64_t => 64
  end.

(** Conversion of an integer to the unsigned type [T]. *)
Definition to_uint (T : uint_type) (z : Z) : Z := z mod 2 ^ width T.

(** Integer promotion: the operands of [<<], [|], [&] and [~] narrower than
    [int] (32 bits) are first converted to [int]. *)
Definition promoted_width (T : uint_type) : Z := Z.max (width T) 32.

(** [a << n]: undefined when [n] is not less than the width of the promoted
    left operand. *)
Definition shl (T : uint_type) (a n : Z) : result Z :=
  if n <? promoted_width T then Ok (Z.shiftl a n) else Undefined.

Definition SetBit (T : uint_type) (current : Z) (bit_position : Z)
    (bit_value : bool) : result Z :=
  let update_mask := to_uint T 1 in
  shifted <- shl T update_mask bit_position ;;
  let update_mask := to_uint T shifted in
  if bit_value then
    Ok (to_uint T (Z.lor current update_mask))
  else
    let update_mask := to_uint T (Z.lnot update_mask) in
    Ok (to_uint T (Z.land current update_mask)).

(** [mask] is declared [const uint32_t] whatever [T] is. *)
Definition GetBit (T : uint_type) (current : Z) (bit_position : Z) : result bool :=
  m <- SetBit T (to_uint T 0) bit_position true ;;
  let mask := to_uint uint32_t m in
  if Z.land mask current >? 0 then Ok true else Ok false.

(* ================================================================== *)
(** ** [std::map]

    A [std::map<Key, Value, Compare>] is represented by its entries in
    iteration order, that is, in increasing key order.  Two keys are the
    same key when neither is less than the other. *)

Definition std_map (Key Value : Type) : Type := list (Key * Value).

Section StdMap.
Context {Key Value : Type} `{Less Key}.

Definition same_key (a b : Key) : bool := negb (less a b) && negb (less b a).

(** [map.find(key)]: the entry with that key, [None] for [map.end()]. *)
Fixpoint map_find (map : std_map Key Value) (key : Key) : option (Key * Value) :=
  match map with
  | [] => None
  | (k, v) :: rest =>
      if same_key k key then Some (k, v) else map_find rest key
  end.

(** [map[key] = value]: [operator[]] finds the entry of [key], or inserts
    one at the place the order gives it; the assignment then stores
    [value] in it. *)
Fixpoint map_assign (map : std_map Key Value) (key : Key) (value : Value)
  : std_map Key Value :=
  match map with
  | [] => [(key, value)]
  | (k, v) :: rest =>
      if less key k then (key, value) :: (k, v) :: rest
      else if less k key then (k, v) :: map_assign rest key value
      else (k, value) :: rest
  end.

(** The representation invariant: keys strictly increasing. *)
Fixpoint keys_above (bound : Key) (map : std_map Key Value) : bool :=
  match map with
  | [] => true
  | (k, _) :: rest => less bound k && keys_above k rest
  end.

Definition map_ok (map : std_map Key Value) : bool :=
  match map with
  | [] => true
  | (k, _) :: rest => keys_above k rest
  end.

Definition RetrieveOrDefault (map : std_map Key Value) (key : Key)
    (default_val : Value) : Value :=
  match map_find map key with
  | Some found_itr => snd found_itr
  | None => default_val
  end.

(** [keys.push_back(k)]. *)
Definition push_back {A : Type} (v : list A) (x : A) : list A := v ++ [x].

(** [for (itr = map.begin(); itr != map.end(); ++itr)]: the iterator
    visits the entries in order. *)
Definition GetKeys (map : std_map Key Value) : list Key :=
  fold_left (fun keys itr => let cur_key := fst itr in push_back keys cur_key)
            map [].

Definition GetKeysAndValues (map : std_map Key Value) : list (Key * Value) :=
  fold_left (fun keys_and_values itr =>
               let cur_pair := (fst itr, snd itr) in
               push_back keys_and_values cur_pair)
            map [].

(** The overload taking a vector of pairs. *)
Definition MakeFromKeysAndValues (keys_and_values : list (Key * Value))
  : result (std_map Key Value) :=
  r <- for_idx (List.length keys_and_values) 0
         (fun idx map =>
            cur_pair <- at_index keys_and_values idx ;;
            Ok (Next (map_assign map (fst cur_pair) (snd cur_pair))))
         [] ;;
  match r with
  | Next map => Ok map
  | Return map => Ok map
  end.

(** The overload taking parallel vectors of keys and of values.  The first
    argument tells whether the translation unit defines [NDEBUG]. *)
Definition MakeFromKeysAndValues2 (NDEBUG : bool)
    (keys : list Key) (values : list Value)
  : result (std_map Key Value) :=
  _ <- assert NDEBUG (Nat.eqb (List.length keys) (List.length values))
              "keys.size() == values.size()" ;;
  r <- for_idx (List.length keys) 0
         (fun idx map =>
            cur_key <- at_index keys idx ;;
            cur_value <- at_index values idx ;;
            Ok (Next (map_assign map cur_key cur_value)))
         [] ;;
  match r with
  | Next map => Ok map
  | Return map => Ok map
  end.
End StdMap.

(* ================================================================== *)
(** ** Sequences as sets *)

Section Sets.
Context {T : Type} `{Less T}.

Definition IsSubset (set candidate_subset : list T) : result bool :=
  r <- for_idx (List.length set) 0
         (fun idx (items_map : std_map T Z) =>
            item <- at_index set idx ;;
            Ok (Next (map_assign items_map item 1)))
         [] ;;
  match r with
  | Return b => Ok b
  | Next items_map =>
      r' <- for_idx (List.length candidate_subset) 0
              (fun idx (_ : unit) =>
                 item <- at_index candidate_subset idx ;;
                 match map_find items_map item with
                 | None => Ok (Return false)
                 | Some _ => Ok (Next tt)
                 end)
              tt ;;
      match r' with
      | Return b => Ok b
      | Next _ => Ok true
      end
  end.

(** [&&] evaluates its right operand only when the left one is true. *)
Definition SetsEqual (set1 set2 : list T) : result bool :=
  b1 <- IsSubset set1 set2 ;;
  if b1 then
    b2 <- IsSubset set2 set1 ;;
    if b2 then Ok true else Ok false
  else Ok false.
End Sets.

(* ================================================================== *)
(** ** Strings *)

(** [s.find(sub)]: the first position at which [sub] occurs in [s];
    [None] stands for [std::string::npos]. *)
Fixpoint string_find (s sub : string) : option nat :=
  if prefix sub s then Some O
  else match s with
       | EmptyString => None
       | String _ s' =>
           match string_find s' sub with
           | Some pos => Some (S pos)
           | None => None
           end
       end.

Definition CheckAllStringsForSubstring (strings : list string) (substring : string)
  : result bool :=
  r <- for_idx (List.length strings) 0
         (fun idx (_ : unit) =>
            candidate_string <- at_index strings idx ;;
            let found := string_find candidate_string substring in
            match found with
            | None => Ok (Return false)
            | Some _ => Ok (Next tt)
            end)
         tt ;;
  match r with
  | Return b => Ok b
  | Next _ => Ok true
  end.

(* ================================================================== *)
(** ** [std::unordered_map]

    A [std::unordered_map<Key, Value, Hash, Predicate>] is represented by its
    entries in some order; the order is not specified and nothing below
    depends on it.  [Predicate] decides whether two keys are the same. *)

Class EqualTo (Key : Type) := equal_to : Key -> Key -> bool.

(** [std::equal_to] on the built-in types decides equality. *)
Class EqualToDecides (Key : Type) `{EqualTo Key} : Prop :=
  equal_to_eq : forall a b : Key, equal_to a b = true <-> a = b.

#[global] Instance Z_equal_to : EqualTo Z := Z.eqb.

Definition std_unordered_map (Key Value : Type) : Type := list (Key * Value).

Section StdUnorderedMap.
Context {Key Value : Type} `{EqualTo Key}.

(** [map.find(key)]: the entry with that key, [None] for [map.end()]. *)
Fixpoint unordered_find (map : std_unordered_map Key Value) (key : Key)
  : option (Key * Value) :=
  match map with
  | [] => None
  | (k, v) :: rest =>
      if equal_to k key then Some (k, v) else unordered_find rest key
  end.

(** The overload of [RetrieveOrDefault] for [std::unordered_map]. *)
Definition RetrieveOrDefault_unordered (map : std_unordered_map Key Value)
    (key : Key) (default_val : Value) : Value :=
  match unordered_find map key with
  | Some found_itr => snd found_itr
  | None => default_val
  end.
End StdUnorderedMap.

(* ================================================================== *)
(** ** Logging *)

(** [UNLIKELY(x)] is [__builtin_expect(!!(x), 0)], whose value is that of
    [!!(x)]. *)
Definition UNLIKELY (x : bool) : bool := negb (negb x).

(** The two console streams. *)
Inductive stream : Type := std_cout | std_cerr.

(** Both functions return what they wrote, each piece of text with the
    stream it went to.  The levels are [int32_t]; their comparison and their
    decimal text are those of the integers. *)
Definition ConditionalPrint (msg : string) (msg_level print_level : Z)
  : list (stream * string) :=
  if UNLIKELY (msg_level <=? print_level) then
    let printstr := ("[" ++ to_string msg_level ++ "/"
                     ++ to_string print_level ++ "] "
                     ++ msg ++ newline)%string in
    [(std_cout, printstr)]
  else [].

Definition ConditionalError (msg : string) (msg_level print_level : Z)
  : list (stream * string) :=
  if UNLIKELY (msg_level <=? print_level) then
    let printstr := ("[" ++ to_string msg_level ++ "/"
                     ++ to_string print_level ++ "] "
                     ++ msg ++ newline)%string in
    [(std_cerr, printstr)]
  else [].

(* ================================================================== *)
(** ** Vocabulary of the statements *)

(** [v] lies in the inclusive interval [[lo, hi]]. *)
Definition in_range {T} `{Less T} (v lo hi : T) : Prop :=
  less v lo = false /\ less hi v = false.

(** Visiting the elements of a vector one after the other; the loops over
    an index are compared with this in the proofs. *)
Fixpoint for_each {T S R : Type} (v : list T)
    (body : T -> S -> result (flow S R)) (s : S) : result (flow S R) :=
  match v with
  | [] => Ok (Next s)
  | x :: v' =>
      r <- body x s ;;
      match r with
      | Next s' => for_each v' body s'
      | Return r => Ok (Return r)
      end
  end.

(** [sub] occurs somewhere in [s]. *)
Definition occurs_in (sub s : string) : Prop :=
  exists before after, s = (before ++ sub ++ after)%string.

Definition is_some {A : Type} (o : option A) : bool :=
  match o with
  | Some _ => true
  | None => false
  end.

(** [s.find(sub) != npos]. *)
Definition found_in (sub s : string) : bool := is_some (string_find s sub).

(** The value of the last pair with key [key], if any. *)
Fixpoint last_write {Key Value : Type} `{Less Key}
    (pairs : list (Key * Value)) (key : Key) : option Value :=
  match pairs with
  | [] => None
  | (k, v) :: rest =>
      match last_write rest key with
      | Some v' => Some v'
      | None => if same_key k key then Some v else None
      end
  end.

(** Inserting the pairs one after the other into an empty map. *)
Definition insert_all {Key Value : Type} `{Less Key}
    (pairs : list (Key * Value)) : std_map Key Value :=
  fold_left (fun map p => map_assign map (fst p) (snd p)) pairs [].

(* ================================================================== *)
(** * Properties *)

#[global] Instance Z_strict_total : StrictTotal Z.
Proof.
  split; unfold less, Z_less; intros.
  - apply Z.ltb_irrefl.
  - rewrite Z.ltb_lt in *. lia.
  - rewrite Z.ltb_ge in *. lia.
Qed.

Section OrderFacts.
Context {T : Type} `{StrictTotal T}.

Lemma less_asym (a b : T) : less a b = true -> less b a = false.
Proof.
  intros Hab. destruct (less b a) eqn:Hba; [|reflexivity].
  rewrite <- (less_irrefl a). symmetry. eapply less_trans; eassumption.
Qed.

Lemma less_le_trans (a b c : T) :
  less a b = true -> less c b = false -> less a c = true.
Proof.
  intros Hab Hcb. destruct (less b c) eqn:Hbc.
  - eapply less_trans; eassumption.
  - rewrite (less_total _ _ Hcb Hbc). assumption.
Qed.

Lemma same_key_eq (a b : T) : same_key a b = true <-> a = b.
Proof.
  unfold same_key. split.
  - intros Hs. apply andb_prop in Hs as [H1 H2].
    apply negb_true_iff in H1, H2. now apply less_total.
  - intros ->. now rewrite less_irrefl.
Qed.
End OrderFacts.

(* ------------------------------------------------------------------ *)
(** ** Numeric bounds *)

Section ClampFacts.
Context {T : Type} `{StrictTotal T} `{ToString T}.

Lemma clamp_in_range (val min max : T) :
  less max min = false -> in_range (std_min max (std_max min val)) min max.
Proof.
  intros Hmm. unfold in_range, std_min, std_max.
  destruct (less min val) eqn:Hv.
  - destruct (less val max) eqn:Hx.
    + split; [now apply less_asym | now apply less_asym].
    + split; [assumption | apply less_irrefl].
  - destruct (less min max) eqn:Hx.
    + split; [apply less_irrefl | now apply less_asym].
    + split; [assumption | apply less_irrefl].
Qed.

Lemma clamp_fixes_range (val min max : T) :
  in_range val min max -> std_min max (std_max min val) = val.
Proof.
  intros [Hlo Hhi]. unfold std_min, std_max.
  destruct (less min val) eqn:Hv.
  - destruct (less val max) eqn:Hx; [reflexivity|]. now apply less_total.
  - assert (min = val) as <- by now apply less_total.
    destruct (less min max) eqn:Hx; [reflexivity|]. now apply less_total.
Qed.

(** C3.  With [min <= max], [ClampValue] returns a value of [[min, max]],
    and [val] itself when [val] is already there; with [min > max] it
    throws [std::invalid_argument]. *)
Theorem ClampValue_spec (val min max : T) :
  (less max min = false ->
     exists r, ClampValue val min max = Ok r
               /\ in_range r min max
               /\ (in_range val min max -> r = val))
  /\ (less max min = true ->
        ClampValue val min max = Throw (invalid_argument "min > max")).
Proof.
  unfold ClampValue, greater_eq. split; intros Hmm; rewrite Hmm; simpl.
  - eexists. split; [reflexivity|]. split.
    + now apply clamp_in_range.
    + apply clamp_fixes_range.
  - reflexivity.
Qed.

(** C4 (amended).  For a type whose [<] is a strict total order,
    [ClampValueAndWarn] ends the way [ClampValue] does, with the same
    value or the same exception; with [min > max] nothing is written
    before the exception; with [min <= max] a message goes to the error
    stream exactly when [val] is outside [[min, max]]. *)
Theorem ClampValueAndWarn_spec (val min max : T) :
  snd (ClampValueAndWarn val min max) = ClampValue val min max
  /\ (less max min = true ->
        ClampValueAndWarn val min max
        = ([], Throw (invalid_argument "min > max")))
  /\ (less max min = false ->
        (fst (ClampValueAndWarn val min max) <> [] <-> ~ in_range val min max)).
Proof.
  unfold ClampValueAndWarn, ClampValue, greater_eq, greater, in_range.
  destruct (less max min) eqn:Hmm; simpl.
  - repeat split; try reflexivity; discriminate.
  - destruct (less val min) eqn:Hlo; simpl.
    + repeat split; try discriminate.
      * f_equal. unfold std_min, std_max.
        rewrite (less_asym _ _ Hlo).
        destruct (less min max) eqn:Hx; [reflexivity|]. now apply less_total.
      * intros _ [Hc _]. discriminate.
    + destruct (less max val) eqn:Hhi; simpl.
      * repeat split; try discriminate.
        -- f_equal. unfold std_min, std_max.
           assert (less min val = true) as ->.
           { destruct (less min val) eqn:Hv; [reflexivity|].
             assert (min = val) as <- by now apply less_total.
             congruence. }
           now rewrite (less_asym _ _ Hhi).
        -- intros _ [_ Hc]. discriminate.
      * repeat split; try discriminate.
        -- f_equal. symmetry. now apply clamp_fixes_range.
        -- intros Hc. now contradiction Hc.
        -- intros Hc. contradiction Hc. now split.
Qed.
End ClampFacts.

Lemma ClampValue_spec_witness :
  (exists r, ClampValue 15 0 10 = Ok r
             /\ in_range r 0 10
             /\ (in_range 15 0 10 -> r = 15))
  /\ ClampValue 5 7 3 = Throw (invalid_argument "min > max").
Proof.
  split.
  - apply (proj1 (ClampValue_spec 15 0 10)). reflexivity.
  - apply (proj2 (ClampValue_spec 5 7 3)). reflexivity.
Defined.

(** C4 as stated, at a floating-point [val = NaN] with bounds 0 and 10:
    both tests of [ClampValueAndWarn] are false, so it returns NaN and
    writes nothing, while [ClampValue] returns 0. *)
Lemma ClampValueAndWarn_nan_counterexample :
  ClampValue NaN (Num 0) (Num 10) = Ok (Num 0)
  /\ ClampValueAndWarn NaN (Num 0) (Num 10) = ([], Ok NaN)
  /\ snd (ClampValueAndWarn NaN (Num 0) (Num 10))
     <> ClampValue NaN (Num 0) (Num 10).
Proof. repeat split. discriminate. Qed.

Lemma ClampValueAndWarn_spec_witness :
  snd (ClampValueAndWarn 15 0 10) = ClampValue 15 0 10
  /\ ClampValueAndWarn 5 7 3 = ([], Throw (invalid_argument "min > max"))
  /\ fst (ClampValueAndWarn 15 0 10) <> [].
Proof.
  split; [| split].
  - exact (proj1 (ClampValueAndWarn_spec 15 0 10)).
  - exact (proj1 (proj2 (ClampValueAndWarn_spec 5 7 3)) eq_refl).
  - apply (proj2 (proj2 (ClampValueAndWarn_spec 15 0 10)) eq_refl).
    intros [_ Hc]. vm_compute in Hc. discriminate.
Defined.


(* ------------------------------------------------------------------ *)
(** ** Alignment *)

Lemma CheckAlignment_result (addr A : Z) (verbose : bool) :
  A <> 0 -> snd (CheckAlignment addr A verbose) = Ok (addr mod A =? 0).
Proof.
  intros HA. unfold CheckAlignment, umod.
  destruct (A =? 0) eqn:E; [apply Z.eqb_eq in E; contradiction|].
  destruct (addr mod A =? 0), verbose; reflexivity.
Qed.

(** C5 (amended).  For a non-zero [desired_alignment], [CheckAlignment]
    returns true exactly when the address is a multiple of it, and false
    otherwise; [RequireAlignment] throws, with the address and the alignment
    in the message, exactly when [CheckAlignment] returns false, and returns
    normally exactly when it returns true. *)
Theorem alignment_spec (addr A : Z) (verbose : bool) :
  A <> 0 ->
  snd (CheckAlignment addr A verbose) = Ok (addr mod A =? 0)
  /\ (snd (CheckAlignment addr A verbose) = Ok true <-> addr mod A = 0)
  /\ (RequireAlignment addr A
      = Throw (runtime_error ("Item @ " ++ to_string addr
                              ++ " not aligned at desired alignment of "
                              ++ to_string A ++ " bytes")%string)
      <-> snd (CheckAlignment addr A verbose) = Ok false)
  /\ (RequireAlignment addr A = Ok tt
      <-> snd (CheckAlignment addr A verbose) = Ok true).
Proof.
  intros HA. rewrite (CheckAlignment_result addr A verbose HA).
  unfold RequireAlignment, umod.
  destruct (A =? 0) eqn:E; [apply Z.eqb_eq in E; contradiction|]. simpl.
  destruct (addr mod A =? 0) eqn:Hm; simpl.
  - apply Z.eqb_eq in Hm.
    repeat split; try discriminate; try reflexivity; auto.
  - apply Z.eqb_neq in Hm.
    repeat split; try discriminate; try reflexivity; auto; try contradiction.
Qed.

Lemma alignment_spec_witness :
  snd (CheckAlignment 4097 8 true) = Ok (4097 mod 8 =? 0)
  /\ (snd (CheckAlignment 4097 8 true) = Ok true <-> 4097 mod 8 = 0)
  /\ (RequireAlignment 4097 8
      = Throw (runtime_error ("Item @ " ++ to_string 4097
                              ++ " not aligned at desired alignment of "
                              ++ to_string 8 ++ " bytes")%string)
      <-> snd (CheckAlignment 4097 8 true) = Ok false)
  /\ (RequireAlignment 4097 8 = Ok tt
      <-> snd (CheckAlignment 4097 8 true) = Ok true).
Proof.
  apply (alignment_spec 4097 8 true). lia.
Defined.

(** C5 as stated, at [desired_alignment = 0]: the remainder is undefined
    behaviour, so [CheckAlignment] returns neither true nor false, and
    [RequireAlignment] neither throws nor returns. *)
Lemma alignment_zero_counterexample :
  (forall b, snd (CheckAlignment 8 0 false) <> Ok b)
  /\ RequireAlignment 8 0 <> Ok tt
  /\ (forall msg, RequireAlignment 8 0 <> Throw (runtime_error msg)).
Proof.
  repeat split; intros; discriminate.
Qed.

(* ------------------------------------------------------------------ *)
(** ** Bit operations *)

Lemma width_pos (T : uint_type) : 8 <= width T <= 64.
Proof. destruct T; simpl; lia. Qed.

Lemma to_uint_range (T : uint_type) (z : Z) : 0 <= to_uint T z < 2 ^ width T.
Proof.
  unfold to_uint. apply Z.mod_pos_bound.
  pose proof (width_pos T). apply Z.pow_pos_nonneg; lia.
Qed.

Lemma to_uint_small (T : uint_type) (z : Z) :
  0 <= z < 2 ^ width T -> to_uint T z = z.
Proof. intros Hz. unfold to_uint. now apply Z.mod_small. Qed.

Lemma to_uint_testbit (T : uint_type) (z i : Z) :
  0 <= i ->
  Z.testbit (to_uint T z) i = (i <? width T) && Z.testbit z i.
Proof.
  intros Hi. unfold to_uint. pose proof (width_pos T).
  destruct (i <? width T) eqn:E.
  - apply Z.ltb_lt in E. rewrite Z.mod_pow2_bits_low by lia. reflexivity.
  - apply Z.ltb_ge in E. rewrite Z.mod_pow2_bits_high by lia. reflexivity.
Qed.

Lemma uint_high_bits (T : uint_type) (x i : Z) :
  0 <= x < 2 ^ width T -> width T <= i -> Z.testbit x i = false.
Proof.
  intros Hx Hi. rewrite <- (to_uint_small T x Hx).
  pose proof (width_pos T). rewrite to_uint_testbit by lia.
  replace (i <? width T) with false; [reflexivity|].
  symmetry. apply Z.ltb_ge. lia.
Qed.

(** The mask built by the first two statements of [SetBit]. *)
Lemma update_mask_value (T : uint_type) (pos : Z) :
  0 <= pos < width T -> to_uint T (Z.shiftl (to_uint T 1) pos) = 2 ^ pos.
Proof.
  intros Hp. pose proof (width_pos T).
  assert (to_uint T 1 = 1) as ->.
  { apply to_uint_small. split; [lia|]. apply Z.pow_gt_1; lia. }
  rewrite Z.shiftl_1_l. apply to_uint_small. split.
  - apply Z.pow_nonneg; lia.
  - apply Z.pow_lt_mono_r; lia.
Qed.

Lemma SetBit_value (T : uint_type) (x pos : Z) (b : bool) :
  0 <= pos < width T ->
  SetBit T x pos b
  = Ok (if b then to_uint T (Z.lor x (2 ^ pos))
        else to_uint T (Z.land x (to_uint T (Z.lnot (2 ^ pos))))).
Proof.
  intros Hp. unfold SetBit, shl, promoted_width.
  replace (pos <? Z.max (width T) 32) with true
    by (symmetry; apply Z.ltb_lt; lia).
  simpl. rewrite (update_mask_value T pos Hp). destruct b; reflexivity.
Qed.

Lemma SetBit_testbit (T : uint_type) (x pos : Z) (b : bool) (y i : Z) :
  0 <= x < 2 ^ width T -> 0 <= pos < width T ->
  SetBit T x pos b = Ok y -> 0 <= i ->
  Z.testbit y i = if i =? pos then b else Z.testbit x i.
Proof.
  intros Hx Hp Hy Hi. rewrite (SetBit_value T x pos b Hp) in Hy.
  injection Hy as <-.
  assert (Hhigh : (i <? width T) = false -> Z.testbit x i = false).
  { intros E. apply Z.ltb_ge in E. now apply (uint_high_bits T). }
  destruct b.
  - rewrite to_uint_testbit, Z.lor_spec, Z.pow2_bits_eqb by lia.
    rewrite (Z.eqb_sym pos i).
    destruct (i =? pos) eqn:E.
    + apply Z.eqb_eq in E. subst i.
      replace (pos <? width T) with true by (symmetry; apply Z.ltb_lt; lia).
      now rewrite orb_true_r.
    + rewrite orb_false_r. destruct (i <? width T) eqn:E'; simpl; [reflexivity|].
      symmetry. now apply Hhigh.
  - rewrite to_uint_testbit, Z.land_spec, to_uint_testbit, Z.lnot_spec,
      Z.pow2_bits_eqb by lia.
    rewrite (Z.eqb_sym pos i).
    destruct (i =? pos) eqn:E; simpl.
    + now rewrite !andb_false_r.
    + destruct (i <? width T) eqn:E'; simpl.
      * now rewrite andb_true_r.
      * symmetry. now apply Hhigh.
Qed.

(** C6.  For a position below the width of [T], [SetBit] returns a value of
    [T] whose bit at [bit_position] is [bit_value] and whose other bits are
    those of [current]. *)
Theorem SetBit_spec (T : uint_type) (current bit_position : Z) (bit_value : bool) :
  0 <= current < 2 ^ width T ->
  0 <= bit_position < width T ->
  exists r, SetBit T current bit_position bit_value = Ok r
            /\ 0 <= r < 2 ^ width T
            /\ Z.testbit r bit_position = bit_value
            /\ (forall i, i <> bit_position -> Z.testbit r i = Z.testbit current i).
Proof.
  intros Hx Hp. pose proof (SetBit_value T current bit_position bit_value Hp) as Hv.
  eexists. split; [exact Hv|]. split; [|split].
  - destruct bit_value; apply to_uint_range.
  - rewrite (SetBit_testbit _ _ _ _ _ _ Hx Hp Hv) by lia.
    now rewrite Z.eqb_refl.
  - intros i Hi. destruct (Z.neg_nonneg_cases i) as [Hneg | Hpos].
    + now rewrite !Z.testbit_neg_r by lia.
    + rewrite (SetBit_testbit _ _ _ _ _ _ Hx Hp Hv) by lia.
      replace (i =? bit_position) with false; [reflexivity|].
      symmetry. now apply Z.eqb_neq.
Qed.

Lemma SetBit_spec_witness :
  exists r, SetBit uint8_t 5 3 true = Ok r
            /\ 0 <= r < 2 ^ width uint8_t
            /\ Z.testbit r 3 = true
            /\ (forall i, i <> 3 -> Z.testbit r i = Z.testbit 5 i).
Proof.
  apply (SetBit_spec uint8_t 5 3 true); simpl; lia.
Defined.

Lemma land_pow2 (pos cur : Z) :
  0 <= pos ->
  Z.land (2 ^ pos) cur = if Z.testbit cur pos then 2 ^ pos else 0.
Proof.
  intros Hp. apply Z.bits_inj'. intros i Hi.
  rewrite Z.land_spec, Z.pow2_bits_eqb by lia.
  destruct (pos =? i) eqn:E.
  - apply Z.eqb_eq in E. subst i.
    destruct (Z.testbit cur pos); simpl.
    + rewrite Z.pow2_bits_eqb by lia. now rewrite Z.eqb_refl.
    + now rewrite Z.bits_0.
  - simpl. destruct (Z.testbit cur pos).
    + rewrite Z.pow2_bits_eqb by lia. now rewrite E.
    + now rewrite Z.bits_0.
Qed.

(** What [GetBit] computes: the bit of [current], but only below position
    32, where the [uint32_t] mask still holds it. *)
Lemma GetBit_value (T : uint_type) (current pos : Z) :
  0 <= pos < width T ->
  GetBit T current pos
  = Ok (if pos <? 32 then Z.testbit current pos else false).
Proof.
  intros Hp. unfold GetBit. rewrite (SetBit_value T _ pos true Hp).
  cbn [bind]. pose proof (width_pos T).
  assert (to_uint T 0 = 0) as -> by (unfold to_uint; apply Z.mod_0_l; lia).
  rewrite Z.lor_0_l.
  assert (to_uint T (2 ^ pos) = 2 ^ pos) as ->.
  { apply to_uint_small. split; [apply Z.pow_nonneg; lia|].
    apply Z.pow_lt_mono_r; lia. }
  destruct (pos <? 32) eqn:E.
  - apply Z.ltb_lt in E.
    assert (to_uint uint32_t (2 ^ pos) = 2 ^ pos) as ->.
    { apply to_uint_small. change (width uint32_t) with 32.
      split; [apply Z.pow_nonneg; lia|]. apply Z.pow_lt_mono_r; lia. }
    rewrite land_pow2 by lia.
    destruct (Z.testbit current pos).
    + replace (2 ^ pos >? 0) with true; [reflexivity|].
      symmetry. apply Z.gtb_lt. apply Z.pow_pos_nonneg; lia.
    + reflexivity.
  - apply Z.ltb_ge in E.
    assert (to_uint uint32_t (2 ^ pos) = 0) as ->.
    { unfold to_uint. change (width uint32_t) with 32.
      replace pos with ((pos - 32) + 32) by lia.
      rewrite Z.pow_add_r by lia. apply Z.mod_mul. lia. }
    reflexivity.
Qed.

(** Reading back a bit just written works below position 32, in every one
    of the four types. *)
Lemma GetBit_SetBit_low (T : uint_type) (x pos : Z) (b : bool) :
  0 <= x < 2 ^ width T -> 0 <= pos < width T -> pos < 32 ->
  (y <- SetBit T x pos b ;; GetBit T y pos) = Ok b.
Proof.
  intros Hx Hp H32.
  destruct (SetBit_spec T x pos b Hx Hp) as [y [Hy [_ [Hbit _]]]].
  rewrite Hy. simpl. rewrite GetBit_value by assumption.
  replace (pos <? 32) with true by (symmetry; apply Z.ltb_lt; lia).
  now rewrite Hbit.
Qed.

(** A cleared bit reads back as false everywhere. *)
Lemma GetBit_SetBit_false (T : uint_type) (x pos : Z) :
  0 <= x < 2 ^ width T -> 0 <= pos < width T ->
  (y <- SetBit T x pos false ;; GetBit T y pos) = Ok false.
Proof.
  intros Hx Hp.
  destruct (SetBit_spec T x pos false Hx Hp) as [y [Hy [_ [Hbit _]]]].
  rewrite Hy. simpl. rewrite GetBit_value by assumption.
  rewrite Hbit. now destruct (pos <? 32).
Qed.

(** C1 at [T = uint64_t], [x = 0], [bit_position = 32]: the bit is set by
    [SetBit], and [GetBit] still answers false, because its mask is narrowed
    to 32 bits. *)
Theorem GetBit_SetBit_uint64_bit32 :
  SetBit uint64_t 0 32 true = Ok (2 ^ 32)
  /\ GetBit uint64_t (2 ^ 32) 32 = Ok false
  /\ (y <- SetBit uint64_t 0 32 true ;; GetBit uint64_t y 32) = Ok false.
Proof. repeat split. Qed.

(* ------------------------------------------------------------------ *)
(** ** Loops *)

Lemma at_index_middle {T : Type} (pre rest : list T) (x : T) :
  at_index (pre ++ x :: rest) (List.length pre) = Ok x.
Proof.
  unfold at_index. rewrite nth_error_app2 by apply Nat.le_refl.
  now rewrite Nat.sub_diag.
Qed.

(** An index loop that reads [v[idx]] visits the elements of [v] in order. *)
Lemma for_idx_for_each {T S R : Type} (body : T -> S -> result (flow S R))
    (rest pre : list T) (s : S) :
  for_idx (List.length rest) (List.length pre)
          (fun idx s => x <- at_index (pre ++ rest) idx ;; body x s) s
  = for_each rest body s.
Proof.
  revert pre s. induction rest as [|x rest IH]; intros pre s; [reflexivity|].
  cbn [List.length for_idx for_each]. rewrite at_index_middle. cbn [bind].
  destruct (body x s) as [[s'|r]| | |]; cbn [bind]; try reflexivity.
  specialize (IH (pre ++ [x]) s').
  rewrite <- app_assoc, length_app, Nat.add_1_r in IH. exact IH.
Qed.

(** The same for a loop that reads two vectors of equal length side by
    side: it visits the positionally paired elements. *)
Lemma for_idx_parallel {K V S R : Type} (f : K -> V -> S -> result (flow S R))
    (ks : list K) (vs : list V) (pk : list K) (pv : list V) (s : S) :
  List.length pk = List.length pv ->
  List.length ks = List.length vs ->
  for_idx (List.length ks) (List.length pk)
          (fun idx s =>
             k <- at_index (pk ++ ks) idx ;;
             v <- at_index (pv ++ vs) idx ;;
             f k v s) s
  = for_each (combine ks vs) (fun p => f (fst p) (snd p)) s.
Proof.
  revert vs pk pv s.
  induction ks as [|k ks IH]; intros vs pk pv s Hp Hl; [reflexivity|].
  destruct vs as [|v vs]; [discriminate|].
  cbn [List.length for_idx for_each combine fst snd].
  rewrite at_index_middle. cbn [bind].
  rewrite Hp, at_index_middle. cbn [bind].
  destruct (f k v s) as [[s'|r]| | |]; cbn [bind]; try reflexivity.
  specialize (IH vs (pk ++ [k]) (pv ++ [v]) s').
  rewrite <- !app_assoc, !length_app, !Nat.add_1_r, Hp in IH.
  apply IH; [reflexivity|]. now injection Hl.
Qed.

(** A loop body that never returns early is a left fold. *)
Lemma for_each_fold {T S R : Type} (g : S -> T -> S) (v : list T) (s : S) :
  for_each v (fun x s => Ok (Next (g s x))) s
  = Ok (@Next S R (fold_left g v s)).
Proof.
  revert s. induction v as [|x v IH]; intros s; [reflexivity|].
  cbn [for_each bind fold_left]. apply IH.
Qed.

(** A loop body that only tests its element and returns [false] at the
    first failure. *)
Lemma for_each_all {T A : Type} (look : T -> option A) (v : list T) :
  for_each v (fun x (_ : unit) =>
                match look x with
                | None => Ok (Return false)
                | Some _ => Ok (Next tt)
                end) tt
  = Ok (if forallb (fun x => is_some (look x)) v then Next tt else Return false).
Proof.
  induction v as [|x v IH]; [reflexivity|].
  cbn [for_each forallb]. destruct (look x); cbn [bind andb is_some];
    [exact IH | reflexivity].
Qed.

(* ------------------------------------------------------------------ *)
(** ** Strings *)

Lemma prefix_app (sub s : string) :
  prefix sub s = true <-> exists after, s = (sub ++ after)%string.
Proof.
  revert s. induction sub as [|a sub IH]; intros s.
  - split; [intros _; now exists s | intros _; now destruct s].
  - destruct s as [|b s]; simpl.
    + split; [discriminate | intros [after Ha]; discriminate].
    + destruct (ascii_dec a b) as [->|Hab].
      * rewrite IH. split; intros [after Ha]; exists after.
        -- now rewrite Ha.
        -- now injection Ha.
      * split; [discriminate|]. intros [after Ha]. injection Ha as Hb _.
        now contradiction Hab.
Qed.

Lemma string_find_occurs (s sub : string) :
  string_find s sub <> None <-> occurs_in sub s.
Proof.
  induction s as [|c s IH]; cbn [string_find].
  - destruct (prefix sub EmptyString) eqn:Hp.
    + split; [|intros _ Hc; discriminate Hc].
      intros _. apply prefix_app in Hp as [after Ha].
      now exists EmptyString, after.
    + split; [intros Hc; now contradiction Hc|].
      intros [before [after Ha]]. destruct before; [|discriminate].
      simpl in Ha. assert (prefix sub EmptyString = true) as Hq
        by (apply prefix_app; now exists after).
      congruence.
  - destruct (prefix sub (String c s)) eqn:Hp.
    + split; [|intros _ Hc; discriminate Hc].
      intros _. apply prefix_app in Hp as [after Ha].
      now exists EmptyString, after.
    + assert (Hrec : occurs_in sub (String c s) <-> occurs_in sub s).
      { split.
        - intros [before [after Ha]]. destruct before as [|b before].
          + simpl in Ha. assert (prefix sub (String c s) = true) as Hq
              by (apply prefix_app; now exists after).
            congruence.
          + simpl in Ha. injection Ha as _ Ha. now exists before, after.
        - intros [before [after Ha]]. exists (String c before), after.
          simpl. now rewrite Ha. }
      rewrite Hrec, <- IH.
      destruct (string_find s sub); split; intros; congruence.
Qed.

Lemma found_in_occurs (sub s : string) :
  found_in sub s = true <-> occurs_in sub s.
Proof.
  rewrite <- string_find_occurs. unfold found_in, is_some.
  destruct (string_find s sub); split; intros; congruence.
Qed.

Lemma CheckAllStringsForSubstring_value (strings : list string) (sub : string) :
  CheckAllStringsForSubstring strings sub = Ok (forallb (found_in sub) strings).
Proof.
  unfold CheckAllStringsForSubstring.
  rewrite (for_idx_for_each
             (fun candidate_string (_ : unit) =>
                match string_find candidate_string sub with
                | None => Ok (Return false)
                | Some _ => Ok (Next tt)
                end) strings []).
  rewrite (for_each_all (fun s => string_find s sub)). cbn [bind].
  fold (found_in sub). unfold found_in. now destruct (forallb _ strings).
Qed.

(** C9.  [CheckAllStringsForSubstring] always returns, and returns true
    exactly when the substring occurs in every string of the sequence; the
    empty substring occurs in every string, the empty one included; the
    empty sequence gives true. *)
Theorem CheckAllStringsForSubstring_spec
    (strings : list string) (substring : string) :
  (exists b, CheckAllStringsForSubstring strings substring = Ok b)
  /\ (CheckAllStringsForSubstring strings substring = Ok true
      <-> forall s, In s strings -> occurs_in substring s)
  /\ CheckAllStringsForSubstring [] substring = Ok true
  /\ (forall s, occurs_in EmptyString s)
  /\ CheckAllStringsForSubstring strings EmptyString = Ok true.
Proof.
  assert (Hempty : forall s, occurs_in EmptyString s)
    by (intros s; now exists EmptyString, s).
  rewrite !CheckAllStringsForSubstring_value.
  split; [now eexists|]. split; [|split; [reflexivity|split; [exact Hempty|]]].
  - split.
    + intros Hb s Hs. injection Hb as Hb. rewrite forallb_forall in Hb.
      apply found_in_occurs. now apply Hb.
    + intros Hall. f_equal. apply forallb_forall. intros s Hs.
      apply found_in_occurs. now apply Hall.
  - f_equal. apply forallb_forall. intros s _. apply found_in_occurs, Hempty.
Qed.

(* ------------------------------------------------------------------ *)
(** ** [std::map] *)

Section MapFacts.
Context {Key Value : Type} `{StrictTotal Key}.

(** Looking up after [map[k] = v]. *)
Lemma map_find_assign (map : std_map Key Value) (k : Key) (v : Value) (k' : Key) :
  option_map snd (map_find (map_assign map k v) k')
  = if same_key k k' then Some v else option_map snd (map_find map k').
Proof.
  induction map as [|[k0 v0] rest IH]; cbn [map_assign map_find].
  - now destruct (same_key k k').
  - destruct (less k k0) eqn:Hlt; cbn [map_find].
    + now destruct (same_key k k').
    + destruct (less k0 k) eqn:Hgt; cbn [map_find].
      * destruct (same_key k0 k') eqn:E0; [|exact IH].
        apply same_key_eq in E0. subst k'.
        replace (same_key k k0) with false; [reflexivity|].
        symmetry. unfold same_key. rewrite Hgt. now rewrite andb_false_r.
      * assert (k0 = k) as -> by now apply less_total.
        now destruct (same_key k k').
Qed.

Lemma map_find_insert_all (pairs : list (Key * Value)) (map : std_map Key Value)
    (key : Key) :
  option_map snd
    (map_find (fold_left (fun map p => map_assign map (fst p) (snd p)) pairs map)
              key)
  = match last_write pairs key with
    | Some v => Some v
    | None => option_map snd (map_find map key)
    end.
Proof.
  revert map. induction pairs as [|[k v] rest IH]; intros map; [reflexivity|].
  cbn [fold_left last_write fst snd]. rewrite IH.
  destruct (last_write rest key); [reflexivity|].
  rewrite map_find_assign. now destruct (same_key k key).
Qed.

(** Assigning a key above every key of the front part leaves that part
    alone. *)
Lemma map_assign_above (front rest : std_map Key Value) (k : Key) (v : Value) :
  (forall p, In p front -> less (fst p) k = true) ->
  map_assign (front ++ rest) k v = front ++ map_assign rest k v.
Proof.
  induction front as [|[k0 v0] front IH]; intros Hall; [reflexivity|].
  cbn [app map_assign].
  assert (Hk0 : less k0 k = true) by (apply (Hall (k0, v0)); now left).
  rewrite (less_asym _ _ Hk0), Hk0. f_equal. apply IH.
  intros p Hp. apply Hall. now right.
Qed.

Lemma keys_above_all (bound : Key) (map : std_map Key Value) :
  keys_above bound map = true ->
  forall p, In p map -> less bound (fst p) = true.
Proof.
  revert bound. induction map as [|[k v] rest IH]; intros bound Hk p Hp.
  - contradiction.
  - cbn [keys_above] in Hk. apply andb_prop in Hk as [Hb Hrest].
    destruct Hp as [<- | Hp]; [exact Hb|].
    eapply less_trans; [exact Hb|]. now apply IH.
Qed.

(** Inserting the entries of a well-formed map in order, on top of
    entries with smaller keys, appends them. *)
Lemma insert_sorted (rest front : std_map Key Value) :
  map_ok rest = true ->
  (forall p q, In p front -> In q rest -> less (fst p) (fst q) = true) ->
  fold_left (fun map p => map_assign map (fst p) (snd p)) rest front
  = front ++ rest.
Proof.
  revert front. induction rest as [|[k v] rest IH]; intros front Hok Hlt.
  - now rewrite app_nil_r.
  - cbn [fold_left fst snd].
    rewrite <- (app_nil_r front) at 1. rewrite map_assign_above.
    + cbn [map_assign]. rewrite IH.
      * now rewrite <- app_assoc.
      * cbn [map_ok] in Hok. destruct rest as [|[k1 v1] rest]; [reflexivity|].
        cbn [keys_above] in Hok. apply andb_prop in Hok as [_ Hok]. exact Hok.
      * intros p q Hp Hq. apply in_app_or in Hp as [Hp | [<- | []]].
        -- apply Hlt; [exact Hp | now right].
        -- cbn [fst]. now apply (keys_above_all k rest).
    + intros p Hp. apply (Hlt p (k, v)); [exact Hp | now left].
Qed.

Lemma fold_push_back {A B : Type} (g : A -> B) (l : list A) (acc : list B) :
  fold_left (fun acc x => push_back acc (g x)) l acc = acc ++ List.map g l.
Proof.
  revert acc. induction l as [|x l IH]; intros acc; cbn [fold_left List.map].
  - now rewrite app_nil_r.
  - rewrite IH. unfold push_back. now rewrite <- app_assoc.
Qed.

Lemma GetKeys_value (map : std_map Key Value) :
  GetKeys map = List.map fst map.
Proof. unfold GetKeys. now rewrite (fold_push_back fst). Qed.

Lemma GetKeysAndValues_value (map : std_map Key Value) :
  GetKeysAndValues map = map.
Proof.
  unfold GetKeysAndValues.
  rewrite (fold_push_back (fun itr : Key * Value => (fst itr, snd itr))).
  cbn [app]. induction map as [|[k v] rest IH]; [reflexivity|].
  cbn [List.map fst snd]. now rewrite IH.
Qed.

Lemma MakeFromKeysAndValues_value (pairs : list (Key * Value)) :
  MakeFromKeysAndValues pairs = Ok (insert_all pairs).
Proof.
  unfold MakeFromKeysAndValues, insert_all.
  rewrite (for_idx_for_each
             (fun cur_pair map =>
                Ok (Next (map_assign map (fst cur_pair) (snd cur_pair))))
             pairs []).
  now rewrite (for_each_fold (fun map p => map_assign map (fst p) (snd p))).
Qed.
End MapFacts.

Section ContainerFacts.
Context {Key Value : Type} `{StrictTotal Key}.

(** C10.  [GetKeys] returns the first components of what
    [GetKeysAndValues] returns, in the same order. *)
Theorem GetKeys_GetKeysAndValues (map : std_map Key Value) :
  GetKeys map = List.map fst (GetKeysAndValues map).
Proof.
  unfold GetKeys, GetKeysAndValues.
  rewrite (fold_push_back fst).
  rewrite (fold_push_back (fun itr : Key * Value => (fst itr, snd itr))).
  cbn [app]. now rewrite List.map_map.
Qed.

(** C7.  Rebuilding a map from its own key/value pairs gives the map
    back, entry for entry. *)
Theorem MakeFromKeysAndValues_round_trip (map : std_map Key Value) :
  map_ok map = true ->
  MakeFromKeysAndValues (GetKeysAndValues map) = Ok map.
Proof.
  intros Hok. rewrite GetKeysAndValues_value, MakeFromKeysAndValues_value.
  unfold insert_all. rewrite insert_sorted; [reflexivity | exact Hok |].
  intros p q [].
Qed.

Lemma MakeFromKeysAndValues2_equal_lengths (NDEBUG : bool)
    (keys : list Key) (values : list Value) :
  List.length keys = List.length values ->
  MakeFromKeysAndValues2 NDEBUG keys values
  = Ok (insert_all (combine keys values)).
Proof.
  intros Hl. unfold MakeFromKeysAndValues2, assert, insert_all.
  rewrite (proj2 (Nat.eqb_eq _ _) Hl).
  replace (if NDEBUG then Ok tt else Ok tt) with (Ok tt : result unit)
    by now destruct NDEBUG.
  cbn [bind].
  rewrite (for_idx_parallel
             (fun cur_key cur_value map =>
                Ok (Next (map_assign map cur_key cur_value)))
             keys values [] [] [] eq_refl Hl).
  now rewrite (for_each_fold (fun map p => map_assign map (fst p) (snd p))).
Qed.

(** C2 (amended).  In a build that keeps assertions ([NDEBUG] not defined),
    the two-vector overload fails its length assertion exactly when the
    lengths differ; in every build, with equal lengths it returns the map
    obtained by inserting the positionally paired keys and values in order,
    in which a key carries the value of its last pair. *)
Theorem MakeFromKeysAndValues2_spec (NDEBUG : bool)
    (keys : list Key) (values : list Value) :
  (NDEBUG = false ->
   (MakeFromKeysAndValues2 NDEBUG keys values
    = AssertFail "keys.size() == values.size()"
    <-> List.length keys <> List.length values))
  /\ (List.length keys = List.length values ->
      MakeFromKeysAndValues2 NDEBUG keys values
      = Ok (insert_all (combine keys values))
      /\ forall key,
           option_map snd (map_find (insert_all (combine keys values)) key)
           = last_write (combine keys values) key).
Proof.
  split.
  - intros ->. split.
    + intros Hf Hl.
      rewrite (MakeFromKeysAndValues2_equal_lengths false keys values Hl) in Hf.
      discriminate.
    + intros Hl. unfold MakeFromKeysAndValues2, assert.
      now rewrite (proj2 (Nat.eqb_neq _ _) Hl).
  - intros Hl. split; [now apply MakeFromKeysAndValues2_equal_lengths|].
    intros key. unfold insert_all. rewrite map_find_insert_all.
    now destruct (last_write (combine keys values) key).
Qed.
End ContainerFacts.

Lemma MakeFromKeysAndValues_round_trip_witness :
  MakeFromKeysAndValues (GetKeysAndValues [(1, "b"%string); (3, "c"%string)])
  = Ok [(1, "b"%string); (3, "c"%string)].
Proof.
  apply (MakeFromKeysAndValues_round_trip [(1, "b"%string); (3, "c"%string)]).
  reflexivity.
Defined.

Lemma MakeFromKeysAndValues2_spec_witness :
  MakeFromKeysAndValues2 false [3; 1; 3] ["a"%string; "b"%string]
  = AssertFail "keys.size() == values.size()"
  /\ MakeFromKeysAndValues2 false [3; 1; 3] ["a"%string; "b"%string; "c"%string]
     = Ok (insert_all (combine [3; 1; 3] ["a"%string; "b"%string; "c"%string])).
Proof.
  split.
  - apply (proj1 (MakeFromKeysAndValues2_spec
                    false [3; 1; 3] ["a"%string; "b"%string]) eq_refl).
    simpl. lia.
  - apply (proj2 (MakeFromKeysAndValues2_spec
                    false [3; 1; 3] ["a"%string; "b"%string; "c"%string])).
    reflexivity.
Defined.

(** C2 as stated, in a build that defines [NDEBUG]: the lengths differ and
    nothing reports it.  With fewer keys than values a map is returned; with
    more keys than values the loop reads [values[idx]] out of range. *)
Lemma MakeFromKeysAndValues2_ndebug_counterexample :
  MakeFromKeysAndValues2 true [3] ["a"%string; "b"%string]
  = Ok [(3, "a"%string)]
  /\ MakeFromKeysAndValues2 true [3; 1; 3] ["a"%string; "b"%string]
     = Undefined.
Proof. split; reflexivity. Qed.

(* ------------------------------------------------------------------ *)
(** ** Sequences as sets *)

Section SetFacts.
Context {T : Type} `{StrictTotal T}.

Lemma is_some_find_assign {V : Type} (map : std_map T V) (k : T) (v : V) (k' : T) :
  is_some (map_find (map_assign map k v) k')
  = same_key k k' || is_some (map_find map k').
Proof.
  pose proof (map_find_assign map k v k') as Hf.
  destruct (map_find (map_assign map k v) k'), (same_key k k'),
    (map_find map k'); cbn in *; congruence.
Qed.

(** After the first loop of [IsSubset], the keys of [items_map] are the
    elements of [set]. *)
Lemma items_map_keys (set : list T) (map : std_map T Z) (x : T) :
  is_some (map_find (fold_left (fun items_map item => map_assign items_map item 1)
                               set map) x) = true
  <-> In x set \/ is_some (map_find map x) = true.
Proof.
  revert map. induction set as [|y set IH]; intros map; cbn [fold_left In].
  - tauto.
  - rewrite IH, is_some_find_assign, orb_true_iff, same_key_eq. tauto.
Qed.

Lemma IsSubset_value (set candidate_subset : list T) :
  IsSubset set candidate_subset
  = Ok (forallb
          (fun item =>
             is_some (map_find
                        (fold_left (fun items_map item => map_assign items_map item 1)
                                   set ([] : std_map T Z))
                        item))
          candidate_subset).
Proof.
  unfold IsSubset.
  rewrite (for_idx_for_each
             (fun item (items_map : std_map T Z) =>
                Ok (Next (map_assign items_map item 1))) set []).
  rewrite (for_each_fold (fun (items_map : std_map T Z) item =>
                            map_assign items_map item 1)).
  cbn [bind].
  generalize (fold_left (fun (items_map : std_map T Z) item =>
                           map_assign items_map item 1) set []).
  intros items_map.
  rewrite (for_idx_for_each
             (fun item (_ : unit) =>
                match map_find items_map item with
                | None => Ok (Return false)
                | Some _ => Ok (Next tt)
                end) candidate_subset []).
  rewrite (for_each_all (fun item => map_find items_map item)).
  cbn [bind]. now destruct (forallb _ candidate_subset).
Qed.

Lemma IsSubset_true (set candidate_subset : list T) :
  IsSubset set candidate_subset = Ok true
  <-> forall x, In x candidate_subset -> In x set.
Proof.
  rewrite IsSubset_value. split.
  - intros Hb x Hx. injection Hb as Hb. rewrite forallb_forall in Hb.
    apply Hb, items_map_keys in Hx as [Hx | Hx]; [exact Hx | discriminate].
  - intros Hall. f_equal. apply forallb_forall. intros x Hx.
    apply items_map_keys. left. now apply Hall.
Qed.

Lemma SetsEqual_value (set1 set2 : list T) :
  exists b1 b2, IsSubset set1 set2 = Ok b1 /\ IsSubset set2 set1 = Ok b2
                /\ SetsEqual set1 set2 = Ok (b1 && b2).
Proof.
  unfold SetsEqual. rewrite (IsSubset_value set1 set2), (IsSubset_value set2 set1).
  do 2 eexists. split; [reflexivity|]. split; [reflexivity|].
  cbn [bind]. destruct (forallb _ set2); cbn [bind andb]; [|reflexivity].
  now destruct (forallb _ set1).
Qed.

(** C8.  [IsSubset] always returns, and returns true exactly when every
    element of [candidate_subset] is an element of [set]; an empty
    candidate is a subset; [SetsEqual] always returns, and returns true
    exactly when both inclusions hold, that is, when the two sequences have
    the same elements. *)
Theorem IsSubset_SetsEqual_spec (set1 set2 : list T) :
  (exists b, IsSubset set1 set2 = Ok b)
  /\ (IsSubset set1 set2 = Ok true <-> forall x, In x set2 -> In x set1)
  /\ IsSubset set1 [] = Ok true
  /\ (exists b, SetsEqual set1 set2 = Ok b)
  /\ (SetsEqual set1 set2 = Ok true
      <-> IsSubset set1 set2 = Ok true /\ IsSubset set2 set1 = Ok true)
  /\ (SetsEqual set1 set2 = Ok true <-> forall x, In x set1 <-> In x set2).
Proof.
  destruct (SetsEqual_value set1 set2) as [b1 [b2 [H1 [H2 Heq]]]].
  assert (Hboth : SetsEqual set1 set2 = Ok true
                  <-> IsSubset set1 set2 = Ok true /\ IsSubset set2 set1 = Ok true).
  { rewrite Heq, H1, H2. split.
    - intros Hb. injection Hb as Hb. apply andb_prop in Hb as [-> ->]. now split.
    - intros [Ha Hb]. injection Ha as ->. injection Hb as ->. reflexivity. }
  split; [now exists b1|]. split; [apply IsSubset_true|].
  split; [now rewrite IsSubset_value|]. split; [now eexists; exact Heq|].
  split; [exact Hboth|].
  rewrite Hboth, !IsSubset_true. split.
  - intros [Ha Hb] x. split; [apply Hb | apply Ha].
  - intros Hx. split; intros x; apply Hx.
Qed.
End SetFacts.

Lemma IsSubset_SetsEqual_spec_witness :
  (exists b, IsSubset [1; 2] [1; 2; 2] = Ok b)
  /\ (IsSubset [1; 2] [1; 2; 2] = Ok true
      <-> forall x, In x [1; 2; 2] -> In x [1; 2])
  /\ IsSubset [1; 2] [] = Ok true
  /\ (exists b, SetsEqual [1; 2] [1; 2; 2] = Ok b)
  /\ (SetsEqual [1; 2] [1; 2; 2] = Ok true
      <-> IsSubset [1; 2] [1; 2; 2] = Ok true /\ IsSubset [1; 2; 2] [1; 2] = Ok true)
  /\ (SetsEqual [1; 2] [1; 2; 2] = Ok true
      <-> forall x, In x [1; 2] <-> In x [1; 2; 2]).
Proof.
  exact (IsSubset_SetsEqual_spec [1; 2] [1; 2; 2]).
Defined.

(* ------------------------------------------------------------------ *)
(** ** The map invariant is kept *)

Section MapInvariant.
Context {Key Value : Type} `{StrictTotal Key}.

Lemma keys_above_assign (bound : Key) (map : std_map Key Value) (k : Key) (v : Value) :
  less bound k = true -> keys_above bound map = true ->
  keys_above bound (map_assign map k v) = true.
Proof.
  revert bound. induction map as [|[k0 v0] rest IH]; intros bound Hb Hk.
  - cbn [map_assign keys_above]. now rewrite Hb.
  - cbn [keys_above] in Hk. apply andb_prop in Hk as [Hb0 Hrest].
    cbn [map_assign]. destruct (less k k0) eqn:Hlt.
    + cbn [keys_above]. now rewrite Hb, Hlt, Hrest.
    + destruct (less k0 k) eqn:Hgt; cbn [keys_above]; rewrite Hb0; cbn [andb].
      * now apply IH.
      * exact Hrest.
Qed.

Lemma map_assign_ok (map : std_map Key Value) (k : Key) (v : Value) :
  map_ok map = true -> map_ok (map_assign map k v) = true.
Proof.
  destruct map as [|[k0 v0] rest]; intros Hok; [reflexivity|].
  cbn [map_ok] in Hok. cbn [map_assign]. destruct (less k k0) eqn:Hlt.
  - cbn [map_ok keys_above]. now rewrite Hlt, Hok.
  - destruct (less k0 k) eqn:Hgt; cbn [map_ok]; [|exact Hok].
    now apply keys_above_assign.
Qed.

(** Every map the two [MakeFromKeysAndValues] overloads build has strictly
    increasing keys. *)
Lemma insert_all_ok (pairs : list (Key * Value)) :
  map_ok (insert_all pairs) = true.
Proof.
  unfold insert_all.
  assert (Hgen : forall map : std_map Key Value,
             map_ok map = true ->
             map_ok (fold_left (fun map p => map_assign map (fst p) (snd p))
                               pairs map) = true).
  { induction pairs as [|p pairs IH]; intros map Hok; [exact Hok|].
    cbn [fold_left]. apply IH. now apply map_assign_ok. }
  now apply Hgen.
Qed.
End MapInvariant.

(* ================================================================== *)
(** * Further properties *)

(* ------------------------------------------------------------------ *)
(** ** Bit operations: reading, overwriting, independence *)

(** The result of [SetBit], bit by bit. *)
Lemma SetBit_bits (T : uint_type) (x pos : Z) (b : bool) :
  0 <= x < 2 ^ width T -> 0 <= pos < width T ->
  exists y, SetBit T x pos b = Ok y
            /\ 0 <= y < 2 ^ width T
            /\ forall i, 0 <= i ->
                 Z.testbit y i = if i =? pos then b else Z.testbit x i.
Proof.
  intros Hx Hp. pose proof (SetBit_value T x pos b Hp) as Hv.
  eexists. split; [exact Hv|]. split.
  - destruct b; apply to_uint_range.
  - intros i Hi. now apply (SetBit_testbit T x pos b).
Qed.

(** X1.  Below position 32, [GetBit] returns the bit of [current] at
    [bit_position]. *)
Theorem GetBit_reads_bit (T : uint_type) (current bit_position : Z) :
  0 <= bit_position < width T -> bit_position < 32 ->
  GetBit T current bit_position = Ok (Z.testbit current bit_position).
Proof.
  intros Hp H32. rewrite GetBit_value by assumption.
  now replace (bit_position <? 32) with true by (symmetry; apply Z.ltb_lt; lia).
Qed.

Lemma GetBit_reads_bit_witness :
  GetBit uint16_t 40 3 = Ok (Z.testbit 40 3).
Proof.
  apply (GetBit_reads_bit uint16_t 40 3); simpl; lia.
Defined.

(** X2.  On [uint64_t], [GetBit] answers false for every position from 32
    to 63, whatever [current] is. *)
Theorem GetBit_uint64_upper_half (current bit_position : Z) :
  32 <= bit_position < 64 ->
  GetBit uint64_t current bit_position = Ok false.
Proof.
  intros Hp. rewrite GetBit_value by (simpl; lia).
  now replace (bit_position <? 32) with false by (symmetry; apply Z.ltb_ge; lia).
Qed.

Lemma GetBit_uint64_upper_half_witness :
  GetBit uint64_t (2 ^ 64 - 1) 63 = Ok false.
Proof.
  apply (GetBit_uint64_upper_half (2 ^ 64 - 1) 63). lia.
Defined.

(** X3.  Writing one bit does not change what [GetBit] reads at another
    position. *)
Theorem GetBit_SetBit_other (T : uint_type) (current pos pos' : Z) (b : bool) :
  0 <= current < 2 ^ width T ->
  0 <= pos < width T -> 0 <= pos' < width T -> pos <> pos' ->
  (y <- SetBit T current pos b ;; GetBit T y pos') = GetBit T current pos'.
Proof.
  intros Hx Hp Hp' Hne.
  destruct (SetBit_bits T current pos b Hx Hp) as [y [Hy [_ Hbits]]].
  rewrite Hy. cbn [bind]. rewrite !GetBit_value by assumption.
  rewrite Hbits by lia.
  now replace (pos' =? pos) with false by (symmetry; apply Z.eqb_neq; lia).
Qed.

Lemma GetBit_SetBit_other_witness :
  (y <- SetBit uint8_t 5 3 true ;; GetBit uint8_t y 2) = GetBit uint8_t 5 2.
Proof.
  apply (GetBit_SetBit_other uint8_t 5 3 2 true); simpl; lia.
Defined.

(** Two values of [T] with the same bits are the same value. *)
Lemma SetBit_result_unique (T : uint_type) (x pos : Z) (b : bool) (z : Z) :
  0 <= x < 2 ^ width T -> 0 <= pos < width T ->
  (forall i, 0 <= i -> Z.testbit z i = if i =? pos then b else Z.testbit x i) ->
  SetBit T x pos b = Ok z.
Proof.
  intros Hx Hp Hz.
  destruct (SetBit_bits T x pos b Hx Hp) as [y [Hy [_ Hbits]]].
  rewrite Hy. f_equal. apply Z.bits_inj'. intros i Hi.
  now rewrite Hbits, Hz.
Qed.

(** X4.  Writing the same position twice keeps the second value only; in
    particular writing the same value twice is the same as writing it
    once. *)
Theorem SetBit_SetBit_same (T : uint_type) (current pos : Z) (b b' : bool) :
  0 <= current < 2 ^ width T -> 0 <= pos < width T ->
  (y <- SetBit T current pos b ;; SetBit T y pos b') = SetBit T current pos b'.
Proof.
  intros Hx Hp.
  destruct (SetBit_bits T current pos b Hx Hp) as [y [Hy [Hyr Hbits]]].
  destruct (SetBit_bits T y pos b' Hyr Hp) as [z [Hz [_ Hzbits]]].
  rewrite Hy. cbn [bind]. rewrite Hz. symmetry.
  apply SetBit_result_unique; try assumption.
  intros i Hi. rewrite Hzbits by assumption.
  destruct (i =? pos) eqn:E; [reflexivity|].
  rewrite Hbits by assumption. now rewrite E.
Qed.

Lemma SetBit_SetBit_same_witness :
  (y <- SetBit uint8_t 5 3 true ;; SetBit uint8_t y 3 false)
  = SetBit uint8_t 5 3 false.
Proof.
  apply (SetBit_SetBit_same uint8_t 5 3 true false); simpl; lia.
Defined.

(** X5.  Writes at two different positions can be done in either order. *)
Theorem SetBit_SetBit_commute (T : uint_type) (current pos pos' : Z) (b b' : bool) :
  0 <= current < 2 ^ width T ->
  0 <= pos < width T -> 0 <= pos' < width T -> pos <> pos' ->
  (y <- SetBit T current pos b ;; SetBit T y pos' b')
  = (y <- SetBit T current pos' b' ;; SetBit T y pos b).
Proof.
  intros Hx Hp Hp' Hne.
  destruct (SetBit_bits T current pos b Hx Hp) as [y [Hy [Hyr Hybits]]].
  destruct (SetBit_bits T current pos' b' Hx Hp') as [y' [Hy' [Hyr' Hybits']]].
  destruct (SetBit_bits T y pos' b' Hyr Hp') as [z [Hz [_ Hzbits]]].
  rewrite Hy, Hy'. cbn [bind]. rewrite Hz. symmetry.
  apply SetBit_result_unique; try assumption.
  intros i Hi. rewrite Hzbits, Hybits, Hybits' by assumption.
  destruct (i =? pos) eqn:E, (i =? pos') eqn:E'; try reflexivity.
  apply Z.eqb_eq in E, E'. lia.
Qed.

Lemma SetBit_SetBit_commute_witness :
  (y <- SetBit uint8_t 5 3 true ;; SetBit uint8_t y 0 false)
  = (y <- SetBit uint8_t 5 0 false ;; SetBit uint8_t y 3 true).
Proof.
  apply (SetBit_SetBit_commute uint8_t 5 3 0 true false); simpl; lia.
Defined.

(** X6.  Writing a bit the value it already has returns [current]
    unchanged. *)
Theorem SetBit_same_value (T : uint_type) (current pos : Z) :
  0 <= current < 2 ^ width T -> 0 <= pos < width T ->
  SetBit T current pos (Z.testbit current pos) = Ok current.
Proof.
  intros Hx Hp. apply SetBit_result_unique; try assumption.
  intros i Hi. destruct (i =? pos) eqn:E; [|reflexivity].
  apply Z.eqb_eq in E. now subst i.
Qed.

Lemma SetBit_same_value_witness :
  SetBit uint32_t 5 2 (Z.testbit 5 2) = Ok 5.
Proof.
  apply (SetBit_same_value uint32_t 5 2); simpl; lia.
Defined.

(** X7.  On [uint8_t] and [uint16_t], a position at or above the width of
    the type but below 31 is still a defined shift of the promoted [int]:
    the mask is then narrowed to zero, so [SetBit] returns [current]
    unchanged and [GetBit] answers false. *)
Theorem SetBit_GetBit_narrow_out_of_range
    (T : uint_type) (current pos : Z) (b : bool) :
  0 <= current < 2 ^ width T ->
  width T <= pos < 31 ->
  SetBit T current pos b = Ok current
  /\ GetBit T current pos = Ok false.
Proof.
  intros Hx Hp. pose proof (width_pos T) as Hw.
  assert (Hmask : to_uint T (Z.shiftl (to_uint T 1) pos) = 0).
  { assert (to_uint T 1 = 1) as ->.
    { apply to_uint_small. split; [lia|]. apply Z.pow_gt_1; lia. }
    rewrite Z.shiftl_1_l. unfold to_uint.
    replace pos with ((pos - width T) + width T) by lia.
    rewrite Z.pow_add_r by lia. apply Z.mod_mul.
    apply Z.pow_nonzero; lia. }
  assert (Hshl : (pos <? promoted_width T) = true)
    by (apply Z.ltb_lt; unfold promoted_width; lia).
  assert (Hset : forall x c, 0 <= x < 2 ^ width T -> SetBit T x pos c = Ok x).
  { intros x c Hxr. unfold SetBit, shl. rewrite Hshl. cbn [bind].
    rewrite Hmask. destruct c.
    - rewrite Z.lor_0_r. now rewrite to_uint_small.
    - f_equal. apply Z.bits_inj'. intros i Hi.
      rewrite to_uint_testbit, Z.land_spec, to_uint_testbit, Z.lnot_spec,
        Z.bits_0 by lia.
      destruct (i <? width T) eqn:E; cbn [andb negb].
      + now rewrite andb_true_r.
      + symmetry. apply (uint_high_bits T); [assumption|].
        apply Z.ltb_ge in E. lia. }
  split; [now apply Hset|].
  unfold GetBit. assert (Hz : to_uint T 0 = 0)
    by (unfold to_uint; apply Z.mod_0_l; apply Z.pow_nonzero; lia).
  rewrite Hz, (Hset 0 true).
  - reflexivity.
  - split; [lia|]. apply Z.pow_pos_nonneg; lia.
Qed.

Lemma SetBit_GetBit_narrow_out_of_range_witness :
  SetBit uint8_t 255 9 false = Ok 255
  /\ GetBit uint8_t 255 9 = Ok false.
Proof.
  apply (SetBit_GetBit_narrow_out_of_range uint8_t 255 9 false); simpl; lia.
Defined.

(* ------------------------------------------------------------------ *)
(** ** Numeric bounds: the bounds themselves, repeated clamping, order *)

Section ClampMore.
Context {T : Type} `{StrictTotal T} `{ToString T}.

Lemma ClampValue_value (val min max : T) :
  less max min = false ->
  ClampValue val min max = Ok (std_min max (std_max min val)).
Proof. intros Hmm. unfold ClampValue, greater_eq. now rewrite Hmm. Qed.

Lemma clamp_at_bounds (val min max : T) :
  less max min = false ->
  (less val min = true -> std_min max (std_max min val) = min)
  /\ (less max val = true -> std_min max (std_max min val) = max).
Proof.
  intros Hmm. unfold std_min, std_max. split; intros Hv.
  - rewrite (less_asym _ _ Hv).
    destruct (less min max) eqn:Hx; [reflexivity|]. now apply less_total.
  - assert (less min val = true) as ->.
    { destruct (less min val) eqn:Hlo; [reflexivity|].
      destruct (less val min) eqn:Hlo'.
      - rewrite (less_trans _ _ _ Hv Hlo') in Hmm. discriminate.
      - rewrite (less_total _ _ Hlo Hlo') in Hmm. congruence. }
    now rewrite (less_asym _ _ Hv).
Qed.

(** X8.  With [min <= max], a value below [min] is clamped to [min] and a
    value above [max] to [max]. *)
Theorem ClampValue_at_bounds (val min max : T) :
  less max min = false ->
  (less val min = true -> ClampValue val min max = Ok min)
  /\ (less max val = true -> ClampValue val min max = Ok max).
Proof.
  intros Hmm. rewrite ClampValue_value by assumption.
  split; intros Hv; f_equal; now apply clamp_at_bounds.
Qed.

(** X9.  Clamping the result of a clamp again, with the same bounds, gives
    the same result. *)
Theorem ClampValue_idempotent (val min max r : T) :
  ClampValue val min max = Ok r -> ClampValue r min max = Ok r.
Proof.
  intros Hr. destruct (less max min) eqn:Hmm.
  - unfold ClampValue, greater_eq in Hr. rewrite Hmm in Hr. discriminate.
  - rewrite ClampValue_value in Hr by assumption. injection Hr as <-.
    rewrite ClampValue_value by assumption.
    f_equal. apply clamp_fixes_range. now apply clamp_in_range.
Qed.

(** X10.  With fixed bounds, clamping keeps the order of the values:
    [v1 <= v2] gives [clamp v1 <= clamp v2]. *)
Theorem ClampValue_monotone (v1 v2 min max r1 r2 : T) :
  less v2 v1 = false ->
  ClampValue v1 min max = Ok r1 ->
  ClampValue v2 min max = Ok r2 ->
  less r2 r1 = false.
Proof.
  intros Hv Hr1 Hr2. destruct (less max min) eqn:Hmm.
  - unfold ClampValue, greater_eq in Hr1. rewrite Hmm in Hr1. discriminate.
  - rewrite ClampValue_value in Hr1, Hr2 by assumption.
    injection Hr1 as <-. injection Hr2 as <-.
    destruct (less v1 min) eqn:E1.
    + (* v1 below: result is min *)
      rewrite (proj1 (clamp_at_bounds v1 min max Hmm) E1).
      apply (clamp_in_range v2 min max Hmm).
    + destruct (less max v2) eqn:E2.
      * rewrite (proj2 (clamp_at_bounds v2 min max Hmm) E2).
        apply (clamp_in_range v1 min max Hmm).
      * (* min <= v1 <= v2 <= max: both unchanged *)
        assert (Hlo2 : less v2 min = false).
        { destruct (less v2 min) eqn:E; [|reflexivity].
          rewrite (less_le_trans v2 min v1 E E1) in Hv. discriminate. }
        assert (Hhi1 : less max v1 = false).
        { destruct (less max v1) eqn:E; [|reflexivity].
          rewrite (less_le_trans max v1 v2 E Hv) in E2. discriminate. }
        rewrite (clamp_fixes_range v1 min max (conj E1 Hhi1)).
        rewrite (clamp_fixes_range v2 min max (conj Hlo2 E2)).
        exact Hv.
Qed.

(** X11.  With [min <= max], [ClampValueAndWarn] writes at most one message,
    and writes one exactly when the value it returns differs from [val]. *)
Theorem ClampValueAndWarn_warns_iff_changed (val min max : T) :
  less max min = false ->
  (List.length (fst (ClampValueAndWarn val min max)) <= 1)%nat
  /\ (fst (ClampValueAndWarn val min max) = []
      <-> snd (ClampValueAndWarn val min max) = Ok val).
Proof.
  intros Hmm. unfold ClampValueAndWarn, greater_eq, greater. rewrite Hmm.
  cbn [negb]. destruct (less val min) eqn:Hlo; cbn [fst snd List.length].
  - split; [apply Nat.le_refl|]. split; [discriminate|].
    intros Hc. injection Hc as Hc. subst min.
    rewrite less_irrefl in Hlo. discriminate.
  - destruct (less max val) eqn:Hhi; cbn [fst snd List.length].
    + split; [apply Nat.le_refl|]. split; [discriminate|].
      intros Hc. injection Hc as Hc. subst max.
      rewrite less_irrefl in Hhi. discriminate.
    + split; [apply Nat.le_0_l|]. now split.
Qed.
End ClampMore.

Lemma ClampValue_at_bounds_witness :
  ClampValue (-3) 0 10 = Ok 0 /\ ClampValue 15 0 10 = Ok 10.
Proof.
  split.
  - apply (proj1 (ClampValue_at_bounds (-3) 0 10 eq_refl)). reflexivity.
  - apply (proj2 (ClampValue_at_bounds 15 0 10 eq_refl)). reflexivity.
Defined.

Lemma ClampValue_idempotent_witness : ClampValue 10 0 10 = Ok 10.
Proof.
  apply (ClampValue_idempotent 15 0 10 10). reflexivity.
Defined.

Lemma ClampValue_monotone_witness : less 10 0 = false.
Proof.
  apply (ClampValue_monotone (-3) 15 0 10 0 10); reflexivity.
Defined.

Lemma ClampValueAndWarn_warns_iff_changed_witness :
  (List.length (fst (ClampValueAndWarn 15%Z 0%Z 10%Z)) <= 1)%nat
  /\ (fst (ClampValueAndWarn 15 0 10) = []
      <-> snd (ClampValueAndWarn 15 0 10) = Ok 15).
Proof.
  apply (ClampValueAndWarn_warns_iff_changed 15 0 10). reflexivity.
Defined.

(* ------------------------------------------------------------------ *)
(** ** Alignment: the verbose flag, coarser alignments *)

(** X12.  The [verbose] flag changes what is printed and nothing else: the
    outcome is the same with and without it, nothing is written without it,
    and with it (and a non-zero alignment) exactly one line is written. *)
Theorem CheckAlignment_verbose (addr A : Z) :
  snd (CheckAlignment addr A true) = snd (CheckAlignment addr A false)
  /\ fst (CheckAlignment addr A false) = []
  /\ (A <> 0 -> List.length (fst (CheckAlignment addr A true)) = 1%nat).
Proof.
  unfold CheckAlignment, umod. destruct (A =? 0) eqn:E.
  - apply Z.eqb_eq in E. repeat split. intros HA. contradiction.
  - destruct (addr mod A =? 0); repeat split.
Qed.

Lemma CheckAlignment_verbose_witness :
  List.length (fst (CheckAlignment 4097 8 true)) = 1%nat.
Proof.
  apply (proj2 (proj2 (CheckAlignment_verbose 4097 8))). lia.
Defined.

(** X13.  An item aligned to [B] is aligned to every non-zero divisor [A]
    of [B]: [CheckAlignment] returns true for [A] and [RequireAlignment]
    returns normally. *)
Theorem alignment_of_divisor (addr A B : Z) (verbose verbose' : bool) :
  A <> 0 -> B <> 0 -> (A | B) ->
  snd (CheckAlignment addr B verbose) = Ok true ->
  snd (CheckAlignment addr A verbose') = Ok true
  /\ RequireAlignment addr A = Ok tt.
Proof.
  intros HA HB Hdiv Hal.
  rewrite CheckAlignment_result in Hal by assumption.
  injection Hal as Hal. apply Z.eqb_eq in Hal.
  assert (Hm : addr mod A = 0).
  { apply Z.mod_divide; [assumption|].
    apply Z.divide_trans with B; [assumption|].
    now apply Z.mod_divide. }
  split.
  - rewrite CheckAlignment_result by assumption. now rewrite Hm.
  - unfold RequireAlignment, umod.
    replace (A =? 0) with false by (symmetry; now apply Z.eqb_neq).
    cbn [bind]. now rewrite Hm.
Qed.

Lemma alignment_of_divisor_witness :
  snd (CheckAlignment 4096 8 false) = Ok true
  /\ RequireAlignment 4096 8 = Ok tt.
Proof.
  apply (alignment_of_divisor 4096 8 64 true false); try lia.
  - exists 8. reflexivity.
  - reflexivity.
Defined.

(* ------------------------------------------------------------------ *)
(** ** Logging *)

(** X14.  A message is written exactly when [msg_level <= print_level], so
    a message written at some print level is written at every higher one;
    [ConditionalPrint] writes to [std::cout] only, [ConditionalError] to
    [std::cerr] only, and the text is the same. *)
Theorem Conditional_gating (msg : string) (msg_level print_level : Z) :
  (ConditionalPrint msg msg_level print_level <> [] <-> msg_level <= print_level)
  /\ (forall higher, print_level <= higher ->
        ConditionalPrint msg msg_level print_level <> [] ->
        ConditionalPrint msg msg_level higher <> [])
  /\ (forall out, In out (ConditionalPrint msg msg_level print_level) ->
        fst out = std_cout)
  /\ (forall out, In out (ConditionalError msg msg_level print_level) ->
        fst out = std_cerr)
  /\ List.map snd (ConditionalPrint msg msg_level print_level)
     = List.map snd (ConditionalError msg msg_level print_level).
Proof.
  assert (Hgate : forall p,
             ConditionalPrint msg msg_level p <> [] <-> msg_level <= p).
  { intros p. unfold ConditionalPrint, UNLIKELY. rewrite negb_involutive.
    destruct (msg_level <=? p) eqn:E.
    - apply Z.leb_le in E. split; [intros _; exact E | discriminate].
    - apply Z.leb_gt in E. split; [intros Hc; now contradiction Hc | lia]. }
  split; [apply Hgate|]. split.
  - intros higher Hh Hw. apply Hgate. apply Hgate in Hw. lia.
  - unfold ConditionalPrint, ConditionalError, UNLIKELY.
    destruct (msg_level <=? print_level); cbn [negb In List.map snd].
    + repeat split; try reflexivity; intros out [<- | []]; reflexivity.
    + repeat split; try reflexivity; intros out [].
Qed.

Lemma Conditional_gating_witness :
  ConditionalPrint "ready" 2 3 <> [] /\ ConditionalPrint "ready" 2 5 <> [].
Proof.
  assert (Hw : ConditionalPrint "ready" 2 3 <> [])
    by (apply (proj1 (Conditional_gating "ready" 2 3)); lia).
  split; [exact Hw|].
  apply (proj1 (proj2 (Conditional_gating "ready" 2 3)) 5); [lia | exact Hw].
Defined.

(* ------------------------------------------------------------------ *)
(** ** Maps: lookup with a default, keys, the two constructors *)

Section MapMore.
Context {Key Value : Type} `{StrictTotal Key}.

Lemma RetrieveOrDefault_via_find (map : std_map Key Value) (key : Key) (d : Value) :
  RetrieveOrDefault map key d
  = match option_map snd (map_find map key) with
    | Some v => v
    | None => d
    end.
Proof. unfold RetrieveOrDefault. now destruct (map_find map key). Qed.

Lemma is_some_find_keys (map : std_map Key Value) (key : Key) :
  is_some (map_find map key) = true <-> In key (List.map fst map).
Proof.
  induction map as [|[k v] rest IH]; cbn [map_find List.map In fst].
  - split; [discriminate | contradiction].
  - destruct (same_key k key) eqn:E.
    + apply same_key_eq in E. split; [now left | reflexivity].
    + rewrite IH. split; [now right|]. intros [Hk | Hin]; [|exact Hin].
      apply same_key_eq in Hk. congruence.
Qed.

Lemma map_find_entry (map : std_map Key Value) (k : Key) (v : Value) :
  map_ok map = true -> In (k, v) map -> map_find map k = Some (k, v).
Proof.
  induction map as [|[k0 v0] rest IH]; intros Hok Hin; [contradiction|].
  cbn [map_find]. cbn [map_ok] in Hok.
  destruct Hin as [Heq | Hin].
  - injection Heq as -> ->.
    now rewrite (proj2 (same_key_eq k k) eq_refl).
  - pose proof (keys_above_all k0 rest Hok (k, v) Hin) as Hlt. cbn [fst] in Hlt.
    replace (same_key k0 k) with false.
    + apply IH; [|exact Hin].
      destruct rest as [|[k1 v1] rest]; [reflexivity|].
      cbn [keys_above] in Hok. apply andb_prop in Hok as [_ Hok]. exact Hok.
    + symmetry. unfold same_key. now rewrite Hlt.
Qed.

Lemma last_write_absent (pairs : list (Key * Value)) (key : Key) :
  ~ In key (List.map fst pairs) -> last_write pairs key = None.
Proof.
  induction pairs as [|[k v] rest IH]; intros Hn; [reflexivity|].
  cbn [last_write]. cbn [List.map In fst] in Hn.
  rewrite IH by tauto.
  destruct (same_key k key) eqn:E; [|reflexivity].
  apply same_key_eq in E. tauto.
Qed.

Lemma last_write_last (front back : list (Key * Value)) (key : Key) (v : Value) :
  ~ In key (List.map fst back) ->
  last_write (front ++ (key, v) :: back) key = Some v.
Proof.
  intros Hn. induction front as [|[k0 v0] front IH]; cbn [app last_write].
  - rewrite (last_write_absent back key Hn).
    now rewrite (proj2 (same_key_eq key key) eq_refl).
  - now rewrite IH.
Qed.

Lemma last_write_keys (pairs : list (Key * Value)) (key : Key) :
  is_some (last_write pairs key) = true <-> In key (List.map fst pairs).
Proof.
  induction pairs as [|[k v] rest IH]; cbn [last_write List.map In fst].
  - split; [discriminate | contradiction].
  - destruct (last_write rest key).
    + split; [intros _; right; now apply IH | reflexivity].
    + destruct (same_key k key) eqn:E.
      * apply same_key_eq in E. split; [now left | reflexivity].
      * split; [discriminate|]. intros [Hk | Hin].
        -- apply same_key_eq in Hk. congruence.
        -- apply IH in Hin. discriminate.
Qed.

Lemma map_ok_sorted (map : std_map Key Value) :
  map_ok map = true ->
  StronglySorted (fun a b => less a b = true) (List.map fst map).
Proof.
  induction map as [|[k v] rest IH]; intros Hok; [constructor|].
  cbn [List.map fst]. cbn [map_ok] in Hok. constructor.
  - apply IH. destruct rest as [|[k1 v1] rest]; [reflexivity|].
    cbn [keys_above] in Hok. apply andb_prop in Hok as [_ Hok]. exact Hok.
  - apply Forall_forall. intros k' Hk'. apply in_map_iff in Hk' as [p [<- Hp]].
    now apply (keys_above_all k rest).
Qed.

(** X15.  In the map built from a vector of pairs, [RetrieveOrDefault]
    gives the default for a key that no pair has, and for a key that some
    pair has, the value of the last such pair. *)
Theorem RetrieveOrDefault_of_built_map (pairs : list (Key * Value)) :
  exists map, MakeFromKeysAndValues pairs = Ok map
    /\ (forall key d, ~ In key (List.map fst pairs) ->
          RetrieveOrDefault map key d = d)
    /\ (forall front key v back d,
          pairs = front ++ (key, v) :: back ->
          ~ In key (List.map fst back) ->
          RetrieveOrDefault map key d = v).
Proof.
  exists (insert_all pairs). split; [apply MakeFromKeysAndValues_value|].
  assert (Hfind : forall key,
             option_map snd (map_find (insert_all pairs) key)
             = last_write pairs key).
  { intros key. unfold insert_all. rewrite map_find_insert_all.
    now destruct (last_write pairs key). }
  split.
  - intros key d Hn. rewrite RetrieveOrDefault_via_find, Hfind.
    now rewrite last_write_absent.
  - intros front key v back d -> Hn.
    rewrite RetrieveOrDefault_via_find, Hfind. now rewrite last_write_last.
Qed.

(** X16.  In a map, [RetrieveOrDefault] gives the value stored under a key
    that is present, and the default for a key that [GetKeys] does not
    list. *)
Theorem RetrieveOrDefault_present_absent (map : std_map Key Value) :
  map_ok map = true ->
  (forall k v d, In (k, v) map -> RetrieveOrDefault map k d = v)
  /\ (forall k d, ~ In k (GetKeys map) -> RetrieveOrDefault map k d = d).
Proof.
  intros Hok. split.
  - intros k v d Hin. unfold RetrieveOrDefault.
    now rewrite (map_find_entry map k v Hok Hin).
  - intros k d Hn. rewrite GetKeys_value in Hn. unfold RetrieveOrDefault.
    destruct (map_find map k) eqn:E; [|reflexivity].
    contradiction Hn. apply is_some_find_keys. now rewrite E.
Qed.

(** X17.  The keys of a map built from a vector of pairs, as [GetKeys]
    returns them, are strictly increasing, and they are exactly the keys
    that occur in the pairs. *)
Theorem GetKeys_of_built_map (pairs : list (Key * Value)) :
  exists map, MakeFromKeysAndValues pairs = Ok map
    /\ StronglySorted (fun a b => less a b = true) (GetKeys map)
    /\ (forall key, In key (GetKeys map) <-> In key (List.map fst pairs)).
Proof.
  exists (insert_all pairs). split; [apply MakeFromKeysAndValues_value|].
  rewrite GetKeys_value. split.
  - apply map_ok_sorted, insert_all_ok.
  - intros key. rewrite <- is_some_find_keys, <- last_write_keys.
    unfold insert_all.
    pose proof (map_find_insert_all pairs [] key) as Hf. cbn [map_find option_map] in Hf.
    destruct (map_find _ key), (last_write pairs key); cbn in *;
      try discriminate; tauto.
Qed.

(** X18.  With vectors of equal length, the two-vector overload builds the
    same map as the pair overload applied to the paired-up vectors. *)
Theorem MakeFromKeysAndValues_overloads_agree (NDEBUG : bool)
    (keys : list Key) (values : list Value) :
  List.length keys = List.length values ->
  MakeFromKeysAndValues2 NDEBUG keys values
  = MakeFromKeysAndValues (combine keys values).
Proof.
  intros Hl. rewrite MakeFromKeysAndValues_value.
  now apply MakeFromKeysAndValues2_equal_lengths.
Qed.
End MapMore.

Lemma RetrieveOrDefault_of_built_map_witness :
  exists map,
    MakeFromKeysAndValues [(3, "a"%string); (1, "b"%string); (3, "c"%string)]
    = Ok map
    /\ RetrieveOrDefault map 3 "none"%string = "c"%string
    /\ RetrieveOrDefault map 7 "none"%string = "none"%string.
Proof.
  destruct (RetrieveOrDefault_of_built_map
              [(3, "a"%string); (1, "b"%string); (3, "c"%string)])
    as [map [Hm [Habsent Hlast]]].
  exists map. split; [exact Hm|]. split.
  - apply (Hlast [(3, "a"%string); (1, "b"%string)] 3 "c"%string []).
    + reflexivity.
    + intros [].
  - apply Habsent. simpl. lia.
Defined.

Lemma RetrieveOrDefault_present_absent_witness :
  RetrieveOrDefault [(1, "b"%string); (3, "c"%string)] 3 "none"%string
  = "c"%string.
Proof.
  assert (Hok : map_ok [(1, "b"%string); (3, "c"%string)] = true)
    by reflexivity.
  apply (proj1 (RetrieveOrDefault_present_absent _ Hok)).
  right. left. reflexivity.
Defined.

Lemma GetKeys_of_built_map_witness :
  exists map,
    MakeFromKeysAndValues [(3, "a"%string); (1, "b"%string); (3, "c"%string)]
    = Ok map
    /\ StronglySorted (fun a b => less a b = true) (GetKeys map)
    /\ (forall key, In key (GetKeys map) <-> In key [3; 1; 3]).
Proof.
  exact (GetKeys_of_built_map
           [(3, "a"%string); (1, "b"%string); (3, "c"%string)]).
Defined.

Lemma MakeFromKeysAndValues_overloads_agree_witness :
  MakeFromKeysAndValues2 true [3; 1; 3] ["a"%string; "b"%string; "c"%string]
  = MakeFromKeysAndValues (combine [3; 1; 3] ["a"%string; "b"%string; "c"%string]).
Proof.
  apply (MakeFromKeysAndValues_overloads_agree
           true [3; 1; 3] ["a"%string; "b"%string; "c"%string]).
  reflexivity.
Defined.

Section MapPositional.
Context {Key Value : Type} `{StrictTotal Key}.

Lemma last_write_combine_nth (keys : list Key) (values : list Value)
    (i : nat) (k : Key) (v : Value) :
  NoDup keys ->
  nth_error keys i = Some k -> nth_error values i = Some v ->
  last_write (combine keys values) k = Some v.
Proof.
  revert values i. induction keys as [|k0 ks IH]; intros values i Hnd Hk Hv.
  - destruct i; discriminate.
  - destruct values as [|v0 vs]; [destruct i; discriminate|].
    apply NoDup_cons_iff in Hnd as [Hnotin Hnd].
    cbn [combine last_write]. destruct i as [|i]; cbn [nth_error] in Hk, Hv.
    + injection Hk as ->. injection Hv as ->.
      rewrite last_write_absent.
      * now rewrite (proj2 (same_key_eq k k) eq_refl).
      * intros Hin. apply Hnotin. apply in_map_iff in Hin as [[k' v'] [Hk' Hin]].
        cbn [fst] in Hk'. subst k'. now apply in_combine_l in Hin.
    + now rewrite (IH vs i Hnd Hk Hv).
Qed.

(** X19.  Built from keys without repetition and as many values, the map
    gives, for the key at any position, the value at the same position. *)
Theorem MakeFromKeysAndValues2_positional (NDEBUG : bool)
    (keys : list Key) (values : list Value) :
  List.length keys = List.length values ->
  NoDup keys ->
  exists map, MakeFromKeysAndValues2 NDEBUG keys values = Ok map
    /\ forall i k v d,
         nth_error keys i = Some k -> nth_error values i = Some v ->
         RetrieveOrDefault map k d = v.
Proof.
  intros Hl Hnd. exists (insert_all (combine keys values)). split.
  - now apply MakeFromKeysAndValues2_equal_lengths.
  - intros i k v d Hk Hv. rewrite RetrieveOrDefault_via_find.
    unfold insert_all. rewrite map_find_insert_all.
    now rewrite (last_write_combine_nth keys values i k v Hnd Hk Hv).
Qed.
End MapPositional.

Lemma MakeFromKeysAndValues2_positional_witness :
  exists map,
    MakeFromKeysAndValues2 true [3; 1; 2] ["a"%string; "b"%string; "c"%string]
    = Ok map
    /\ forall i k v d,
         nth_error [3; 1; 2] i = Some k ->
         nth_error ["a"%string; "b"%string; "c"%string] i = Some v ->
         RetrieveOrDefault map k d = v.
Proof.
  apply (MakeFromKeysAndValues2_positional
           true [3; 1; 2] ["a"%string; "b"%string; "c"%string]).
  - reflexivity.
  - repeat constructor; simpl; lia.
Defined.

Section MapOrderIndependence.
Context {Key Value : Type} `{StrictTotal Key}.

Lemma map_ok_tail (k : Key) (v : Value) (rest : std_map Key Value) :
  map_ok ((k, v) :: rest) = true ->
  map_ok rest = true /\ map_find rest k = None.
Proof.
  cbn [map_ok]. intros Hok. split.
  - destruct rest as [|[k1 v1] rest]; [reflexivity|].
    cbn [keys_above] in Hok. apply andb_prop in Hok as [_ Hok]. exact Hok.
  - destruct (map_find rest k) eqn:E; [|reflexivity].
    assert (Hin : In k (List.map fst rest))
      by (apply is_some_find_keys; now rewrite E).
    apply in_map_iff in Hin as [q [Hq Hin]].
    pose proof (keys_above_all k rest Hok q Hin) as Hlt.
    rewrite Hq, less_irrefl in Hlt. discriminate.
Qed.

Lemma same_key_refl (k : Key) : same_key k k = true.
Proof. now apply same_key_eq. Qed.

(** Two maps in which every key has the same value are the same map. *)
Lemma map_extensional (m1 m2 : std_map Key Value) :
  map_ok m1 = true -> map_ok m2 = true ->
  (forall k, option_map snd (map_find m1 k) = option_map snd (map_find m2 k)) ->
  m1 = m2.
Proof.
  revert m2. induction m1 as [|[k1 v1] r1 IH]; intros m2 Hok1 Hok2 Hall.
  - destruct m2 as [|[k2 v2] r2]; [reflexivity|].
    specialize (Hall k2). cbn [map_find] in Hall.
    rewrite same_key_refl in Hall. discriminate.
  - destruct m2 as [|[k2 v2] r2].
    + specialize (Hall k1). cbn [map_find] in Hall.
      rewrite same_key_refl in Hall. discriminate.
    + destruct (map_ok_tail k1 v1 r1 Hok1) as [Hr1 Hn1].
      destruct (map_ok_tail k2 v2 r2 Hok2) as [Hr2 Hn2].
      assert (Hk : k1 = k2).
      { destruct (same_key k1 k2) eqn:E; [now apply same_key_eq|].
        assert (E' : same_key k2 k1 = false)
          by (unfold same_key in *; now rewrite andb_comm).
        pose proof (Hall k1) as Ha. pose proof (Hall k2) as Hb.
        cbn [map_find] in Ha, Hb.
        rewrite same_key_refl, E' in Ha. rewrite same_key_refl, E in Hb.
        assert (Hin1 : In k1 (List.map fst r2)).
        { apply is_some_find_keys. destruct (map_find r2 k1); [reflexivity|].
          discriminate. }
        assert (Hin2 : In k2 (List.map fst r1)).
        { apply is_some_find_keys. destruct (map_find r1 k2); [reflexivity|].
          discriminate. }
        apply in_map_iff in Hin1 as [q1 [Hq1 Hin1]].
        apply in_map_iff in Hin2 as [q2 [Hq2 Hin2]].
        pose proof (keys_above_all k2 r2 Hok2 q1 Hin1) as Hlt1.
        pose proof (keys_above_all k1 r1 Hok1 q2 Hin2) as Hlt2.
        rewrite Hq1 in Hlt1. rewrite Hq2 in Hlt2.
        rewrite (less_asym _ _ Hlt1) in Hlt2. discriminate. }
      subst k2.
      assert (Hv : v1 = v2).
      { specialize (Hall k1). cbn [map_find] in Hall.
        rewrite same_key_refl in Hall. cbn in Hall. congruence. }
      subst v2. f_equal. apply IH; try assumption.
      intros k. destruct (same_key k1 k) eqn:E.
      * apply same_key_eq in E. subst k. now rewrite Hn1, Hn2.
      * specialize (Hall k). cbn [map_find] in Hall. now rewrite E in Hall.
Qed.

Lemma last_write_in (pairs : list (Key * Value)) (k : Key) (v : Value) :
  NoDup (List.map fst pairs) ->
  last_write pairs k = Some v <-> In (k, v) pairs.
Proof.
  induction pairs as [|[k0 v0] rest IH]; intros Hnd.
  - cbn. split; [discriminate | contradiction].
  - cbn [List.map fst] in Hnd. apply NoDup_cons_iff in Hnd as [Hnotin Hnd].
    cbn [last_write In]. split.
    + destruct (last_write rest k) eqn:E.
      * intros Hs. right. apply IH; [assumption|]. congruence.
      * destruct (same_key k0 k) eqn:Ek; [|discriminate].
        apply same_key_eq in Ek. intros Hs. left. congruence.
    + intros [Heq | Hin].
      * injection Heq as -> ->.
        rewrite (last_write_absent rest k Hnotin). now rewrite same_key_refl.
      * apply (IH Hnd) in Hin. now rewrite Hin.
Qed.

(** X20.  When no key occurs twice, the map built from a vector of pairs
    does not depend on the order of the pairs. *)
Theorem MakeFromKeysAndValues_order_independent
    (pairs pairs' : list (Key * Value)) :
  NoDup (List.map fst pairs) ->
  Permutation pairs pairs' ->
  MakeFromKeysAndValues pairs = MakeFromKeysAndValues pairs'.
Proof.
  intros Hnd Hperm. rewrite !MakeFromKeysAndValues_value. f_equal.
  assert (Hnd' : NoDup (List.map fst pairs'))
    by (eapply Permutation_NoDup; [apply Permutation_map; exact Hperm | exact Hnd]).
  apply map_extensional; try apply insert_all_ok.
  intros k. unfold insert_all. rewrite !map_find_insert_all.
  cbn [map_find option_map].
  destruct (last_write pairs k) as [v|] eqn:E.
  - apply (last_write_in pairs k v Hnd) in E.
    apply (Permutation_in _ Hperm) in E.
    apply (last_write_in pairs' k v Hnd') in E. now rewrite E.
  - destruct (last_write pairs' k) as [v'|] eqn:E'; [|reflexivity].
    apply (last_write_in pairs' k v' Hnd') in E'.
    apply (Permutation_in _ (Permutation_sym Hperm)) in E'.
    apply (last_write_in pairs k v' Hnd) in E'. congruence.
Qed.
End MapOrderIndependence.

Lemma MakeFromKeysAndValues_order_independent_witness :
  MakeFromKeysAndValues [(3, "a"%string); (1, "b"%string)]
  = MakeFromKeysAndValues [(1, "b"%string); (3, "a"%string)].
Proof.
  apply (MakeFromKeysAndValues_order_independent
           [(3, "a"%string); (1, "b"%string)] [(1, "b"%string); (3, "a"%string)]).
  - repeat constructor; simpl; lia.
  - apply perm_swap.
Defined.

(* ------------------------------------------------------------------ *)
(** ** [std::unordered_map]: lookup with a default *)

Section UnorderedMapFacts.
Context {Key Value : Type} `{EqualToDecides Key}.

(** X21.  In a hash map, whose keys are pairwise different,
    [RetrieveOrDefault] gives the value stored under a key that is present
    and the default for a key that is not, in whatever order the entries
    are kept. *)
Theorem RetrieveOrDefault_unordered_present_absent
    (map : std_unordered_map Key Value) :
  NoDup (List.map fst map) ->
  (forall k v d, In (k, v) map -> RetrieveOrDefault_unordered map k d = v)
  /\ (forall k d, ~ In k (List.map fst map) ->
        RetrieveOrDefault_unordered map k d = d).
Proof.
  unfold RetrieveOrDefault_unordered.
  induction map as [|[k0 v0] rest IH]; intros Hnd.
  - split; [intros k v d [] | reflexivity].
  - cbn [List.map fst] in Hnd. apply NoDup_cons_iff in Hnd as [Hnotin Hnd].
    destruct (IH Hnd) as [IHin IHout]. split.
    + intros k v d [Heq | Hin]; cbn [unordered_find].
      * injection Heq as -> ->.
        now rewrite (proj2 (equal_to_eq k k) eq_refl).
      * destruct (equal_to k0 k) eqn:E; [|now apply IHin].
        apply equal_to_eq in E. subst k0. contradiction Hnotin.
        apply in_map_iff. now exists (k, v).
    + intros k d Hn. cbn [unordered_find]. cbn [List.map fst In] in Hn.
      destruct (equal_to k0 k) eqn:E.
      * apply equal_to_eq in E. tauto.
      * apply IHout. tauto.
Qed.
End UnorderedMapFacts.

#[global] Instance Z_equal_to_decides : EqualToDecides Z.
Proof. intros a b. apply Z.eqb_eq. Qed.

Lemma RetrieveOrDefault_unordered_present_absent_witness :
  RetrieveOrDefault_unordered [(3, "a"%string); (1, "b"%string)] 1 "none"%string
  = "b"%string.
Proof.
  assert (Hnd : NoDup (List.map fst [(3, "a"%string); (1, "b"%string)]))
    by (repeat constructor; simpl; lia).
  apply (proj1 (RetrieveOrDefault_unordered_present_absent _ Hnd)).
  right. left. reflexivity.
Defined.

(* ------------------------------------------------------------------ *)
(** ** Sequences as sets: order, repetition, composition *)

Section SetMore.
Context {T : Type} `{StrictTotal T}.

Lemma SetsEqual_true (set1 set2 : list T) :
  SetsEqual set1 set2 = Ok true <-> forall x, In x set1 <-> In x set2.
Proof.
  destruct (SetsEqual_value set1 set2) as [b1 [b2 [Hs1 [Hs2 Heq]]]].
  rewrite Heq. split.
  - intros Hb. injection Hb as Hb. apply andb_prop in Hb as [-> ->].
    pose proof (proj1 (IsSubset_true set1 set2) Hs1) as Hi1.
    pose proof (proj1 (IsSubset_true set2 set1) Hs2) as Hi2.
    intros x. split; [apply Hi2 | apply Hi1].
  - intros Hx.
    assert (IsSubset set1 set2 = Ok true) as Ha
      by (apply IsSubset_true; intros x; apply Hx).
    assert (IsSubset set2 set1 = Ok true) as Hb
      by (apply IsSubset_true; intros x; apply Hx).
    rewrite Hs1 in Ha. rewrite Hs2 in Hb.
    injection Ha as ->. injection Hb as ->. reflexivity.
Qed.

(** X22.  Every sequence is a subset of itself, and being a subset is
    transitive. *)
Theorem IsSubset_preorder (a b c : list T) :
  IsSubset a a = Ok true
  /\ (IsSubset a b = Ok true -> IsSubset b c = Ok true ->
      IsSubset a c = Ok true).
Proof.
  rewrite !IsSubset_true. split; [auto|].
  intros Hab Hbc x Hx. auto.
Qed.

(** X23.  [SetsEqual] is reflexive, symmetric and transitive. *)
Theorem SetsEqual_equivalence (a b c : list T) :
  SetsEqual a a = Ok true
  /\ (SetsEqual a b = Ok true -> SetsEqual b a = Ok true)
  /\ (SetsEqual a b = Ok true -> SetsEqual b c = Ok true ->
      SetsEqual a c = Ok true).
Proof.
  rewrite !SetsEqual_true. split; [tauto|]. split.
  - intros Hab x. now rewrite Hab.
  - intros Hab Hbc x. now rewrite Hab, Hbc.
Qed.

(** X24.  [SetsEqual] does not see the order of the elements nor how often
    they are repeated: a sequence equals each of its rearrangements, and
    equals itself written twice. *)
Theorem SetsEqual_order_and_repeats (a b : list T) :
  (Permutation a b -> SetsEqual a b = Ok true)
  /\ SetsEqual a (a ++ a) = Ok true.
Proof.
  rewrite !SetsEqual_true. split.
  - intros Hp x. split; apply Permutation_in;
      [exact Hp | now apply Permutation_sym].
  - intros x. rewrite in_app_iff. tauto.
Qed.

(** X25.  A concatenation is a subset exactly when both parts are, and a
    subset of [set] stays one when [set] grows. *)
Theorem IsSubset_append (set c1 c2 more : list T) :
  (IsSubset set (c1 ++ c2) = Ok true
   <-> IsSubset set c1 = Ok true /\ IsSubset set c2 = Ok true)
  /\ (IsSubset set c1 = Ok true -> IsSubset (set ++ more) c1 = Ok true).
Proof.
  rewrite !IsSubset_true. split.
  - split.
    + intros Hall. split; intros x Hx; apply Hall, in_or_app; tauto.
    + intros [H1 H2] x Hx. apply in_app_or in Hx as [Hx | Hx]; auto.
  - intros Hall x Hx. apply in_or_app. left. now apply Hall.
Qed.
End SetMore.

Lemma IsSubset_preorder_witness :
  IsSubset [1; 2; 3] [1; 2; 3] = Ok true /\ IsSubset [1; 2; 3] [3] = Ok true.
Proof.
  destruct (IsSubset_preorder [1; 2; 3] [2; 3] [3]) as [Hr Ht].
  split; [exact Hr|]. apply Ht; reflexivity.
Defined.

Lemma SetsEqual_equivalence_witness :
  SetsEqual [1; 2] [1; 2] = Ok true /\ SetsEqual [2; 1] [1; 2] = Ok true.
Proof.
  destruct (SetsEqual_equivalence [1; 2] [2; 1] [1; 2]) as [Hr [Hs _]].
  split; [exact Hr|]. apply Hs. reflexivity.
Defined.

Lemma SetsEqual_order_and_repeats_witness :
  SetsEqual [1; 2] [2; 1] = Ok true /\ SetsEqual [1; 2] ([1; 2] ++ [1; 2]) = Ok true.
Proof.
  destruct (SetsEqual_order_and_repeats [1; 2] [2; 1]) as [Hp Hd].
  split; [apply Hp, perm_swap | exact Hd].
Defined.

Lemma IsSubset_append_witness :
  IsSubset [1; 2; 3] ([1] ++ [3]) = Ok true.
Proof.
  apply (proj1 (IsSubset_append [1; 2; 3] [1] [3] [])). split; reflexivity.
Defined.

(* ------------------------------------------------------------------ *)
(** ** Strings: concatenated sequences, shorter substrings *)

Lemma string_app_assoc (a b c : string) :
  ((a ++ b) ++ c = a ++ (b ++ c))%string.
Proof. induction a as [|x a IH]; simpl; [reflexivity | now rewrite IH]. Qed.

Lemma string_length_app (a b : string) :
  String.length (a ++ b) = (String.length a + String.length b)%nat.
Proof. induction a as [|x a IH]; simpl; [reflexivity | now rewrite IH]. Qed.

Lemma CheckAllStringsForSubstring_true (strings : list string) (sub : string) :
  CheckAllStringsForSubstring strings sub = Ok true
  <-> forall s, In s strings -> occurs_in sub s.
Proof.
  rewrite CheckAllStringsForSubstring_value. split.
  - intros Hb s Hs. injection Hb as Hb. rewrite forallb_forall in Hb.
    apply found_in_occurs. now apply Hb.
  - intros Hall. f_equal. apply forallb_forall. intros s Hs.
    apply found_in_occurs. now apply Hall.
Qed.

(** X26.  The check holds for a concatenation of two sequences exactly
    when it holds for each of them. *)
Theorem CheckAllStringsForSubstring_append
    (strings1 strings2 : list string) (substring : string) :
  CheckAllStringsForSubstring (strings1 ++ strings2) substring = Ok true
  <-> CheckAllStringsForSubstring strings1 substring = Ok true
      /\ CheckAllStringsForSubstring strings2 substring = Ok true.
Proof.
  rewrite !CheckAllStringsForSubstring_true. split.
  - intros Hall. split; intros s Hs; apply Hall, in_or_app; tauto.
  - intros [H1 H2] s Hs. apply in_app_or in Hs as [Hs | Hs]; auto.
Qed.

(** X27.  When the check holds for a substring, none of the strings is
    shorter than the substring, and the check holds for every piece of
    that substring as well. *)
Theorem CheckAllStringsForSubstring_narrower
    (strings : list string) (substring piece : string) :
  CheckAllStringsForSubstring strings substring = Ok true ->
  (forall s, In s strings -> (String.length substring <= String.length s)%nat)
  /\ (occurs_in piece substring ->
      CheckAllStringsForSubstring strings piece = Ok true).
Proof.
  rewrite !CheckAllStringsForSubstring_true. intros Hall. split.
  - intros s Hs. destruct (Hall s Hs) as [before [after ->]].
    rewrite !string_length_app. lia.
  - intros [b' [a' ->]] s Hs. destruct (Hall s Hs) as [before [after ->]].
    exists (before ++ b')%string, (a' ++ after)%string.
    now rewrite !string_app_assoc.
Qed.

Lemma CheckAllStringsForSubstring_narrower_witness :
  CheckAllStringsForSubstring ["abc"; "xabcy"]%string "bc" = Ok true.
Proof.
  apply (proj2 (CheckAllStringsForSubstring_narrower
                  ["abc"; "xabcy"]%string "abc" "bc" eq_refl)).
  exists "a"%string, EmptyString. reflexivity.
Defined.

(* ------------------------------------------------------------------ *)
(** ** The two-vector constructor without its assertion *)

(** The parallel loop when the second vector is at least as long as the
    first: the surplus is never read. *)
Lemma for_idx_parallel_surplus {K V S R : Type}
    (f : K -> V -> S -> result (flow S R))
    (ks : list K) (vs : list V) (pk : list K) (pv : list V) (s : S) :
  List.length pk = List.length pv ->
  (List.length ks <= List.length vs)%nat ->
  for_idx (List.length ks) (List.length pk)
          (fun idx s =>
             k <- at_index (pk ++ ks) idx ;;
             v <- at_index (pv ++ vs) idx ;;
             f k v s) s
  = for_each (combine ks vs) (fun p => f (fst p) (snd p)) s.
Proof.
  revert vs pk pv s.
  induction ks as [|k ks IH]; intros vs pk pv s Hp Hl; [reflexivity|].
  destruct vs as [|v vs]; [cbn in Hl; lia|].
  cbn [List.length for_idx for_each combine fst snd].
  rewrite at_index_middle. cbn [bind].
  rewrite Hp, at_index_middle. cbn [bind].
  destruct (f k v s) as [[s'|r]| | |]; cbn [bind]; try reflexivity.
  specialize (IH vs (pk ++ [k]) (pv ++ [v]) s').
  rewrite <- !app_assoc, !length_app, !Nat.add_1_r, Hp in IH.
  apply IH; [reflexivity|]. cbn in Hl. lia.
Qed.

(** The parallel loop when the second vector is shorter: it reaches an
    index at which [vs[idx]] does not exist. *)
Lemma for_idx_parallel_short {K V S R : Type} (g : S -> K -> V -> S)
    (ks : list K) (vs : list V) (pk : list K) (pv : list V) (s : S) :
  List.length pk = List.length pv ->
  (List.length vs < List.length ks)%nat ->
  for_idx (List.length ks) (List.length pk)
          (fun idx s =>
             k <- at_index (pk ++ ks) idx ;;
             v <- at_index (pv ++ vs) idx ;;
             Ok (@Next S R (g s k v))) s
  = Undefined.
Proof.
  revert vs pk pv s.
  induction ks as [|k ks IH]; intros vs pk pv s Hp Hl; [cbn in Hl; lia|].
  cbn [List.length for_idx]. rewrite at_index_middle. cbn [bind].
  destruct vs as [|v vs].
  - unfold at_index at 1. rewrite app_nil_r, Hp.
    now rewrite (proj2 (nth_error_None pv (List.length pv)) (Nat.le_refl _)).
  - rewrite Hp, at_index_middle. cbn [bind].
    specialize (IH vs (pk ++ [k]) (pv ++ [v]) (g s k v)).
    rewrite <- !app_assoc, !length_app, !Nat.add_1_r, Hp in IH.
    apply IH; [reflexivity|]. cbn in Hl. lia.
Qed.

Section NoAssertion.
Context {Key Value : Type} `{Less Key}.

(** X28.  In a build that defines [NDEBUG], the two-vector overload does
    not check the lengths: with at least as many values as keys it returns
    the map built from the keys and the first [keys.size()] values, the
    other values being ignored; with fewer values than keys it reads
    [values[idx]] out of range, which is undefined behaviour. *)
Theorem MakeFromKeysAndValues2_without_assertion
    (keys : list Key) (values : list Value) :
  ((List.length keys <= List.length values)%nat ->
   MakeFromKeysAndValues2 true keys values
   = Ok (insert_all (combine keys (firstn (List.length keys) values))))
  /\ ((List.length values < List.length keys)%nat ->
      MakeFromKeysAndValues2 true keys values = Undefined).
Proof.
  unfold MakeFromKeysAndValues2, assert. cbn [bind]. split; intros Hl.
  - rewrite <- combine_firstn_l.
    rewrite (for_idx_parallel_surplus
               (fun cur_key cur_value map =>
                  Ok (Next (map_assign map cur_key cur_value)))
               keys values [] [] [] eq_refl Hl).
    unfold insert_all.
    now rewrite (for_each_fold (fun map p => map_assign map (fst p) (snd p))).
  - now rewrite (for_idx_parallel_short
                   (fun map cur_key cur_value => map_assign map cur_key cur_value)
                   keys values [] [] [] eq_refl Hl).
Qed.
End NoAssertion.

Lemma MakeFromKeysAndValues2_without_assertion_witness :
  MakeFromKeysAndValues2 true [3; 1] ["a"%string; "b"%string; "c"%string]
  = Ok (insert_all (combine [3; 1] (firstn 2 ["a"%string; "b"%string; "c"%string])))
  /\ MakeFromKeysAndValues2 true [3; 1; 3] ["a"%string; "b"%string] = Undefined.
Proof.
  split.
  - apply (proj1 (MakeFromKeysAndValues2_without_assertion
                    [3; 1] ["a"%string; "b"%string; "c"%string])).
    simpl. lia.
  - apply (proj2 (MakeFromKeysAndValues2_without_assertion
                    [3; 1; 3] ["a"%string; "b"%string])).
    simpl. lia.
Defined.
